(** * Billing follow-ups, claim lifecycle and likelihood extraction

    A shallow embedding of the stateful core of the [ai_backend] package:

    - [billing_automation.py]: the static rule table, the follow-up table
      [active_followups] and the operations [schedule_followup] and
      [process_payment];
    - [insurance_processor.py]: the claim table [claim_tracker], the
      submission path and the background progression [_track_claim_status];
    - [ai_agent.py]: [_extract_approval_likelihood].

    Python dictionaries used as tables are finite maps ([gmap]) keyed by
    strings; the dictionaries stored in them (one follow-up, one claim) are
    records whose optional keys are [option] fields.  Exceptions and the
    mutation of [self] are threaded through a small state-and-exception
    monad in which, as in Python, writes made before an exception persist. *)

From Stdlib Require Import ZArith QArith Qround Qabs Qpower Lia Lqa List Ascii String.
From stdpp Require Import base option list strings gmap fin_maps pretty.

Local Open Scope string_scope.
Local Open Scope Z_scope.

(** ** Python values and exceptions *)

(** The values found under the keys of the untyped dictionaries
    ([Dict[str, Any]]) that the code only passes around or reads with
    [.get]. *)
Inductive pyval :=
| VNone
| VInt (z : Z)
| VFloat (q : Q)
| VStr (s : string).

Inductive exn :=
| KeyError (k : string)
| TypeError (msg : string)
| ValueError (msg : string)
| Exception (msg : string).

(** [d.get(k)]: the value under [k], [None] when the key is missing. *)
Definition py_get (d : gmap string pyval) (k : string) : pyval :=
  default VNone (d !! k).

(** [d.get(k, dflt)]. *)
Definition py_get_default (d : gmap string pyval) (k : string) (dflt : pyval) : pyval :=
  default dflt (d !! k).

(** [v == s] for a string literal [s]. *)
Definition py_eq_str (v : pyval) (s : string) : bool :=
  match v with
  | VStr s' => String.eqb s' s
  | _ => false
  end.

(** Truthiness, as tested by [if not v]. *)
Definition py_truthy (v : pyval) : bool :=
  match v with
  | VNone => false
  | VInt z => negb (z =? 0)
  | VFloat q => negb (Qeq_bool q 0)
  | VStr s => negb (String.eqb s EmptyString)
  end.

(** ** State and exceptions *)

(** A computation over a state [S]: it returns the final state together
    with either the exception that ended it or its value. *)
Definition M (S A : Type) : Type := S -> S * (exn + A).

Definition ret {S A} (a : A) : M S A := fun s => (s, inr a).

Definition raise {S A} (e : exn) : M S A := fun s => (s, inl e).

Definition bind {S A B} (c : M S A) (k : A -> M S B) : M S B :=
  fun s =>
    match c s with
    | (s', inl e) => (s', inl e)
    | (s', inr a) => k a s'
    end.

Definition gets {S A} (f : S -> A) : M S A := fun s => (s, inr (f s)).

Definition modify {S} (f : S -> S) : M S unit := fun s => (f s, inr tt).

Notation "'let*' x ':=' c 'in' k" := (bind c (fun x => k))
  (at level 10, x name, c at level 100, k at level 200).

(** [for x in xs: body x]. *)
Fixpoint for_each {S A} (xs : list A) (body : A -> M S unit) : M S unit :=
  match xs with
  | [] => ret tt
  | x :: xs' => let* _ := body x in for_each xs' body
  end.

(** The wall clock is a counter: every [datetime.now()] reads it and moves
    it forward.  [isoformat] and [strftime] print the reading. *)
Definition isoformat (t : nat) : string := pretty t.
Definition strftime (t : nat) : string := pretty t.

(** ** Numbers read from text *)

Definition is_digit (c : ascii) : bool :=
  ((48 <=? nat_of_ascii c) && (nat_of_ascii c <=? 57))%nat.

Definition digit_value (c : ascii) : Z := Z.of_nat (nat_of_ascii c) - 48.

(** The value of a string of ASCII decimal digits, most significant first;
    [None] when a character is not a digit. *)
Fixpoint digits_value (s : string) (acc : Z) : option Z :=
  match s with
  | EmptyString => Some acc
  | String c s' =>
      if is_digit c then digits_value s' (10 * acc + digit_value c) else None
  end.

(** The text before the first ['.'] and, when there is one, the text after it. *)
Fixpoint split_dot (s : string) : string * option string :=
  match s with
  | EmptyString => (EmptyString, None)
  | String c s' =>
      if Ascii.eqb c "."%char then (EmptyString, Some s')
      else let '(a, b) := split_dot s' in (String c a, b)
  end.

(** [float(s)] on plain decimal notation ([digits], [digits.digits]); other
    spellings that Python accepts (sign, exponent, blanks) are not covered. *)
Definition float_of_string (s : string) : option Q :=
  match split_dot s with
  | (ip, None) =>
      if String.eqb ip EmptyString then None
      else n ← digits_value ip 0; Some (inject_Z n)
  | (ip, Some fp) =>
      if String.eqb ip EmptyString && String.eqb fp EmptyString then None
      else
        n ← digits_value ip 0;
        m ← digits_value fp 0;
        Some (inject_Z n + Qmake m (Z.to_pos (10 ^ Z.of_nat (String.length fp))))%Q
  end.

(** [float(v)] *)
Definition py_float (v : pyval) : exn + Q :=
  match v with
  | VInt z => inr (inject_Z z)
  | VFloat q => inr q
  | VStr s =>
      match float_of_string s with
      | Some q => inr q
      | None => inl (ValueError "could not convert string to float")
      end
  | VNone => inl (TypeError "float() argument must be a string or a real number")
  end.

(** [x < y] on rationals, as a boolean. *)
Definition Qltb (x y : Q) : bool :=
  (Qnum x * Zpos (Qden y) <? Qnum y * Zpos (Qden x)).

(** ** Doubles *)

(** A float of Python is a double.  Numbers are kept as rationals; a
    product, whose exact value need not be a double, is rounded as IEEE 754
    does: to the nearest double, and to the one whose last bit is 0 when
    two are as near. *)

(** [2^e] *)
Definition pow2 (e : Z) : Q := (2 ^ e)%Q.

(** [floor (log2 q)], for [0 < q]. *)
Definition ilog2 (q : Q) : Z :=
  let e := Z.log2 (Qnum q) - Z.log2 (Zpos (Qden q)) in
  if Qle_bool (pow2 e) q then e else e - 1.

(** The integer nearest to [x], the even one of the two when [x] is half
    way. *)
Definition round_half_even (x : Q) : Z :=
  let n := Qfloor x in
  match (x - inject_Z n ?= 1 # 2)%Q with
  | Lt => n
  | Gt => n + 1
  | Eq => if Z.even n then n else n + 1
  end.

(** The double nearest to [q].  Between [2^e] and [2^(e+1)] the doubles
    are the multiples of [2^(e-52)], and below [2^-1022] those of
    [2^-1074].  Beyond the largest double the rounding of IEEE 754 gives
    an infinity, which is not covered: the numbers rounded here are below
    100. *)
Definition round_double (q : Q) : Q :=
  if Qeq_bool q 0 then 0%Q
  else
    let e := Z.max (ilog2 (Qabs q)) (-1022) in
    let ulp := pow2 (e - 52) in
    (inject_Z (round_half_even (q / ulp)) * ulp)%Q.

(** [x * y] on floats. *)
Definition float_mul (x y : Q) : Q := round_double (x * y).

(** Lifting a result into a computation. *)
Definition lift_result {S A} (r : exn + A) : M S A := fun s => (s, r).

(** * billing_automation.py *)

Module Billing.

Inductive FollowUpType := GENTLE | FIRM | FINAL_NOTICE | COLLECTIONS.

(** [FollowUpType.X.value] *)
Definition value (t : FollowUpType) : string :=
  match t with
  | GENTLE => "gentle"
  | FIRM => "firm"
  | FINAL_NOTICE => "final_notice"
  | COLLECTIONS => "collections"
  end.

Record BillingRule := {
  days_after_due : Z;
  follow_up_type : FollowUpType;
  action : string;
  template_id : string
}.

Definition _setup_billing_rules : list BillingRule :=
  [ {| days_after_due := 7; follow_up_type := GENTLE;
       action := "send_reminder"; template_id := "gentle_reminder" |};
    {| days_after_due := 30; follow_up_type := FIRM;
       action := "send_reminder"; template_id := "firm_reminder" |};
    {| days_after_due := 60; follow_up_type := FINAL_NOTICE;
       action := "send_final_notice"; template_id := "final_notice" |};
    {| days_after_due := 90; follow_up_type := COLLECTIONS;
       action := "send_to_collections"; template_id := "collections_notice" |} ].

(** [max(xs, key=...)] on a non-empty list given as head and tail: the
    first element whose key is maximal. *)
Fixpoint py_max_by {A} (key : A -> Z) (best : A) (xs : list A) : A :=
  match xs with
  | [] => best
  | x :: xs' => py_max_by key (if key best <? key x then x else best) xs'
  end.

(** [_get_applicable_rule] over an arbitrary [self.billing_rules]. *)
Definition get_applicable_rule_in (billing_rules : list BillingRule)
    (days_overdue : Z) (follow_up_type_ : string) : option BillingRule :=
  (* Find exact match first *)
  match List.find (fun rule => (days_after_due rule <=? days_overdue) &&
                               String.eqb (value (follow_up_type rule)) follow_up_type_)
                  billing_rules with
  | Some rule => Some rule
  | None =>
      (* Find closest match *)
      match List.filter (fun r => days_after_due r <=? days_overdue) billing_rules with
      | r :: rs => Some (py_max_by days_after_due r rs)
      | [] => None
      end
  end.

Definition _get_applicable_rule (days_overdue : Z) (follow_up_type_ : string)
    : option BillingRule :=
  get_applicable_rule_in _setup_billing_rules days_overdue follow_up_type_.

(** One entry of [self.active_followups]: the dictionary built by
    [schedule_followup], with the keys added later as optional fields. *)
Record Followup := {
  f_invoice_id : string;
  f_days_overdue : Z;
  f_follow_up_type : string;
  f_rule : BillingRule;
  f_invoice_data : gmap string pyval;
  f_status : string;
  f_created_at : string;
  f_executed_at : option string;
  f_cancelled_at : option string;
  f_collections_id : option string;
  f_sent_to_collections : option bool
}.

Definition set_status (v : string) (f : Followup) : Followup :=
  {| f_invoice_id := f_invoice_id f; f_days_overdue := f_days_overdue f;
     f_follow_up_type := f_follow_up_type f; f_rule := f_rule f;
     f_invoice_data := f_invoice_data f; f_status := v;
     f_created_at := f_created_at f; f_executed_at := f_executed_at f;
     f_cancelled_at := f_cancelled_at f; f_collections_id := f_collections_id f;
     f_sent_to_collections := f_sent_to_collections f |}.

Definition set_executed_at (v : string) (f : Followup) : Followup :=
  {| f_invoice_id := f_invoice_id f; f_days_overdue := f_days_overdue f;
     f_follow_up_type := f_follow_up_type f; f_rule := f_rule f;
     f_invoice_data := f_invoice_data f; f_status := f_status f;
     f_created_at := f_created_at f; f_executed_at := Some v;
     f_cancelled_at := f_cancelled_at f; f_collections_id := f_collections_id f;
     f_sent_to_collections := f_sent_to_collections f |}.

Definition set_cancelled_at (v : string) (f : Followup) : Followup :=
  {| f_invoice_id := f_invoice_id f; f_days_overdue := f_days_overdue f;
     f_follow_up_type := f_follow_up_type f; f_rule := f_rule f;
     f_invoice_data := f_invoice_data f; f_status := f_status f;
     f_created_at := f_created_at f; f_executed_at := f_executed_at f;
     f_cancelled_at := Some v; f_collections_id := f_collections_id f;
     f_sent_to_collections := f_sent_to_collections f |}.

Definition set_collections_id (v : string) (f : Followup) : Followup :=
  {| f_invoice_id := f_invoice_id f; f_days_overdue := f_days_overdue f;
     f_follow_up_type := f_follow_up_type f; f_rule := f_rule f;
     f_invoice_data := f_invoice_data f; f_status := f_status f;
     f_created_at := f_created_at f; f_executed_at := f_executed_at f;
     f_cancelled_at := f_cancelled_at f; f_collections_id := Some v;
     f_sent_to_collections := f_sent_to_collections f |}.

Definition set_sent_to_collections (v : bool) (f : Followup) : Followup :=
  {| f_invoice_id := f_invoice_id f; f_days_overdue := f_days_overdue f;
     f_follow_up_type := f_follow_up_type f; f_rule := f_rule f;
     f_invoice_data := f_invoice_data f; f_status := f_status f;
     f_created_at := f_created_at f; f_executed_at := f_executed_at f;
     f_cancelled_at := f_cancelled_at f; f_collections_id := f_collections_id f;
     f_sent_to_collections := Some v |}.

(** What the mock channels print when they deliver, kept as a trace. *)
Inductive Event :=
| EmailSent (email : pyval)
| SmsSent (phone : pyval)
| PhoneCallScheduled (phone : pyval)
| CertifiedMailSent (address : pyval)
| CollectionsCaseCreated (collections_id : string).

(** The payment processor is another object: it sees the payment data and
    the clock, never the follow-up table. *)
Definition Processor : Type := gmap string pyval -> M nat (gmap string pyval).

(** The state of a [BillingAutomation] object (the rule table is constant)
    together with the clock and the trace of deliveries. *)
Record BillingAutomation := {
  active_followups : gmap string Followup;
  payment_processor : Processor;
  clock : nat;
  outbox : list Event
}.

Definition with_followups (m : gmap string Followup) (st : BillingAutomation)
    : BillingAutomation :=
  {| active_followups := m; payment_processor := payment_processor st;
     clock := clock st; outbox := outbox st |}.

Definition with_clock (t : nat) (st : BillingAutomation) : BillingAutomation :=
  {| active_followups := active_followups st;
     payment_processor := payment_processor st;
     clock := t; outbox := outbox st |}.

(** [datetime.now()] *)
Definition datetime_now : M BillingAutomation nat :=
  fun st => (with_clock (S (clock st)) st, inr (clock st)).

Definition push_event (e : Event) (st : BillingAutomation) : BillingAutomation :=
  {| active_followups := active_followups st;
     payment_processor := payment_processor st;
     clock := clock st; outbox := outbox st ++ [e] |}.

(** A mock delivery. *)
Definition emit (e : Event) : M BillingAutomation unit := modify (push_event e).

(** [self.active_followups[followup_id]] *)
Definition followup_at (followup_id : string) : M BillingAutomation Followup :=
  fun st =>
    match active_followups st !! followup_id with
    | Some f => (st, inr f)
    | None => (st, inl (KeyError followup_id))
    end.

(** [self.active_followups[followup_id][key] = v], and a write through a
    local name bound to that same dictionary: the entry is updated in
    place. *)
Definition update_followup (followup_id : string) (upd : Followup -> Followup)
    : M BillingAutomation unit :=
  let* _ := followup_at followup_id in
  modify (fun st => with_followups (alter upd followup_id (active_followups st)) st).

Definition _get_invoice_data (invoice_id : string)
    : M BillingAutomation (gmap string pyval) :=
  ret (list_to_map
         [ ("invoice_id", VStr invoice_id);
           ("patient_name", VStr "John Doe");
           ("email", VStr "john.doe@email.com");
           ("phone", VStr "555-123-4567");
           ("address", VStr "123 Main St, Anytown, CA 90210");
           ("amount", VStr "250.00");
           ("due_date", VStr "2024-07-15");
           ("service_date", VStr "2024-06-15");
           ("days_overdue", VInt 35);
           ("service_description", VStr "Annual Physical Exam") ]).

(** The message texts ([_generate_reminder_message], [_generate_final_notice],
    [_generate_collections_notice]) are pure string formatting whose result
    the mock channels below ignore; they are left out. *)

Definition _send_email_reminder (invoice_data : gmap string pyval)
    : M BillingAutomation unit :=
  let email := py_get invoice_data "email" in
  if negb (py_truthy email) then ret tt
  else emit (EmailSent email).

Definition _send_sms_reminder (invoice_data : gmap string pyval)
    : M BillingAutomation unit :=
  let phone := py_get invoice_data "phone" in
  if negb (py_truthy phone) then ret tt
  else emit (SmsSent phone).

Definition _schedule_phone_call (invoice_data : gmap string pyval)
    : M BillingAutomation unit :=
  let phone := py_get invoice_data "phone" in
  if negb (py_truthy phone) then ret tt
  else emit (PhoneCallScheduled phone).

Definition _send_certified_mail (invoice_data : gmap string pyval)
    : M BillingAutomation unit :=
  let address := py_get_default invoice_data "address" (VStr "No address on file") in
  emit (CertifiedMailSent address).

Definition _create_collections_case (invoice_data : gmap string pyval)
    : M BillingAutomation string :=
  let* t := datetime_now in
  let collections_id := "COL-" +:+ strftime t in
  let* _ := emit (CollectionsCaseCreated collections_id) in
  ret collections_id.

Definition _send_billing_reminder (followup_id template_id : string)
    : M BillingAutomation unit :=
  let* followup := followup_at followup_id in
  let invoice_data := f_invoice_data followup in
  (* Send via multiple channels based on amount *)
  let* amount := lift_result (py_float (py_get_default invoice_data "amount" (VInt 0))) in
  if Qltb 500 amount then
    let* _ := _send_email_reminder invoice_data in
    _schedule_phone_call invoice_data
  else if Qltb 100 amount then
    _send_email_reminder invoice_data
  else
    _send_sms_reminder invoice_data.

Definition _send_final_notice (followup_id : string) : M BillingAutomation unit :=
  let* followup := followup_at followup_id in
  let invoice_data := f_invoice_data followup in
  let* _ := _send_email_reminder invoice_data in
  _send_certified_mail invoice_data.

Definition _send_to_collections (followup_id : string) : M BillingAutomation unit :=
  let* followup := followup_at followup_id in
  let invoice_data := f_invoice_data followup in
  let* collections_id := _create_collections_case invoice_data in
  let* _ := _send_email_reminder invoice_data in
  let* _ := update_followup followup_id (set_collections_id collections_id) in
  update_followup followup_id (set_sent_to_collections true).

Definition _execute_followup_action (followup_id : string) : M BillingAutomation unit :=
  let* found := gets (fun st => active_followups st !! followup_id) in
  match found with
  | None => ret tt
  | Some followup =>
      let rule := f_rule followup in
      let* _ :=
        if String.eqb (action rule) "send_reminder" then
          _send_billing_reminder followup_id (template_id rule)
        else if String.eqb (action rule) "send_final_notice" then
          _send_final_notice followup_id
        else if String.eqb (action rule) "send_to_collections" then
          _send_to_collections followup_id
        else ret tt in
      (* Update status *)
      let* _ := update_followup followup_id (set_status "executed") in
      let* t := datetime_now in
      update_followup followup_id (set_executed_at (isoformat t))
  end.

(** [f"BF-{invoice_id}-{follow_up_type}"] *)
Definition followup_key (invoice_id follow_up_type_ : string) : string :=
  "BF-" +:+ invoice_id +:+ "-" +:+ follow_up_type_.

(** The first half of [schedule_followup], up to and including
    "Store follow-up task"; it returns whether a record was stored. *)
Definition store_followup (invoice_id : string) (days_overdue : Z)
    (follow_up_type_ : string) : M BillingAutomation bool :=
  let followup_id := followup_key invoice_id follow_up_type_ in
  let* invoice_data := _get_invoice_data invoice_id in
  match _get_applicable_rule days_overdue follow_up_type_ with
  | None => ret false
  | Some rule =>
      let* t := datetime_now in
      let* _ := modify (fun st =>
        with_followups
          (<[followup_id :=
               {| f_invoice_id := invoice_id; f_days_overdue := days_overdue;
                  f_follow_up_type := follow_up_type_; f_rule := rule;
                  f_invoice_data := invoice_data; f_status := "scheduled";
                  f_created_at := isoformat t; f_executed_at := None;
                  f_cancelled_at := None; f_collections_id := None;
                  f_sent_to_collections := None |}]> (active_followups st)) st) in
      ret true
  end.

Definition schedule_followup (invoice_id : string) (days_overdue : Z)
    (follow_up_type_ : string) : M BillingAutomation unit :=
  let* stored := store_followup invoice_id days_overdue follow_up_type_ in
  if stored then
    (* Execute follow-up action *)
    _execute_followup_action (followup_key invoice_id follow_up_type_)
  else ret tt.

Definition _cancel_followups_for_invoice (invoice_id : string)
    : M BillingAutomation unit :=
  let* to_cancel := gets (fun st =>
    List.map fst
      (List.filter (fun '(fid, followup) =>
                 String.eqb (f_invoice_id followup) invoice_id &&
                 String.eqb (f_status followup) "scheduled")
              (map_to_list (active_followups st)))) in
  for_each to_cancel (fun followup_id =>
    let* _ := update_followup followup_id (set_status "cancelled") in
    let* t := datetime_now in
    update_followup followup_id (set_cancelled_at (isoformat t))).

(** [await self.payment_processor.process_payment(payment_data)] *)
Definition call_payment_processor (payment_data : gmap string pyval)
    : M BillingAutomation (gmap string pyval) :=
  fun st =>
    let '(t, r) := payment_processor st payment_data (clock st) in
    (with_clock t st, r).

Definition process_payment (invoice_id : string) (payment_data : gmap string pyval)
    : M BillingAutomation (gmap string pyval) :=
  let* payment_result := call_payment_processor payment_data in
  let* _ :=
    if py_eq_str (py_get payment_result "status") "success" then
      (* Cancel any pending follow-ups for this invoice *)
      _cancel_followups_for_invoice invoice_id
    else ret tt in
  ret payment_result.

(** [PaymentProcessor.process_payment]: the mock always succeeds. *)
Definition PaymentProcessor_process_payment : Processor :=
  fun payment_data =>
    let* t1 := (fun t : nat => (S t, inr t)) in
    let* t2 := (fun t : nat => (S t, inr t)) in
    ret (list_to_map
           [ ("status", VStr "success");
             ("transaction_id", VStr ("TXN-" +:+ strftime t1));
             ("amount", py_get payment_data "amount");
             ("processed_at", VStr (isoformat t2)) ]).

(** [BillingAutomation()] *)
Definition init : BillingAutomation :=
  {| active_followups := ∅;
     payment_processor := PaymentProcessor_process_payment;
     clock := 0%nat; outbox := [] |}.

(** ** Vocabulary for the properties of the follow-up table *)

(** Every record sits under the key derived from its own invoice and
    category. *)
Definition keyed (m : gmap string Followup) : Prop :=
  ∀ k f, m !! k = Some f → k = followup_key (f_invoice_id f) (f_follow_up_type f).

Definition table_keyed (st : BillingAutomation) : Prop :=
  keyed (active_followups st).

(** An update that leaves the invoice and the category of a record alone. *)
Definition keeps_identity (upd : Followup → Followup) : Prop :=
  ∀ f, f_invoice_id (upd f) = f_invoice_id f ∧
       f_follow_up_type (upd f) = f_follow_up_type f.

(** [c] maintains [I], whether it returns or raises. *)
Definition preserves {A} (I : BillingAutomation → Prop) (c : M BillingAutomation A)
    : Prop :=
  ∀ st, I st → I (fst (c st)).

(** The calls a client can make. *)
Inductive op :=
| Schedule (invoice_id : string) (days_overdue : Z) (follow_up_type_ : string)
| Pay (invoice_id : string) (payment_data : gmap string pyval).

Definition run_op (o : op) (st : BillingAutomation) : BillingAutomation :=
  match o with
  | Schedule i d c => fst (schedule_followup i d c st)
  | Pay i p => fst (process_payment i p st)
  end.

(** The states the table goes through.  None of the billing coroutines
    awaits anything that suspends, so a call runs to its end before the
    next one starts; besides the states between calls, the states inside a
    call are listed too: after the record is stored and before its action
    runs, and after the payment processor answered and before the
    cancellation. *)
Inductive reachable : BillingAutomation → Prop :=
| reach_init st : active_followups st = ∅ → reachable st
| reach_op st o : reachable st → reachable (run_op o st)
| reach_stored st i d c : reachable st → reachable (fst (store_followup i d c st))
| reach_processor st p : reachable st → reachable (fst (call_payment_processor p st)).

(** ** Analytics *)




(** The states between two calls: those reached from an empty table by
    complete [schedule_followup] and [process_payment] calls. *)
Inductive between_calls : BillingAutomation → Prop :=
| bc_init st : active_followups st = ∅ → between_calls st
| bc_op st o : between_calls st → between_calls (run_op o st).

(** Every record is executed, with an execution stamp and no cancellation
    stamp. *)
Definition all_executed (st : BillingAutomation) : Prop :=
  ∀ k f, active_followups st !! k = Some f →
    f_status f = "executed" ∧ is_Some (f_executed_at f) ∧ f_cancelled_at f = None.

(** What [_send_billing_reminder] delivers for an amount and the contact
    fields of an invoice: e-mail and a phone call above 500, e-mail above
    100, a text message otherwise, each only if its contact field is
    there. *)
Definition reminder_deliveries (amount : Z) (d : gmap string pyval) : list Event :=
  let email := if py_truthy (py_get d "email")
               then [EmailSent (py_get d "email")] else [] in
  if 500 <? amount then
    email ++ (if py_truthy (py_get d "phone")
              then [PhoneCallScheduled (py_get d "phone")] else [])
  else if 100 <? amount then email
  else if py_truthy (py_get d "phone") then [SmsSent (py_get d "phone")] else [].

End Billing.

(** * insurance_processor.py *)

Module Insurance.

(** One entry of [self.claim_tracker]: the dictionary built by
    [submit_claim], with the keys added later as optional fields. *)
Record Claim := {
  c_status : string;
  c_submission_date : string;
  c_claim_data : gmap string pyval;
  c_ai_analysis : gmap string pyval;
  c_clearinghouse : string;
  c_clearinghouse_id : option string;
  c_last_updated : option string;
  c_adjudication_result : option string;
  c_approved_amount : option Q;
  c_denial_reason : option string;
  c_payment_amount : option Q;
  c_payment_date : option string;
  c_appeal_id : option string;
  c_appeal_status : option string;
  c_appeal_date : option string
}.

Definition set_status (v : string) (c : Claim) : Claim :=
  {| c_status := v; c_submission_date := c_submission_date c;
     c_claim_data := c_claim_data c; c_ai_analysis := c_ai_analysis c;
     c_clearinghouse := c_clearinghouse c;
     c_clearinghouse_id := c_clearinghouse_id c;
     c_last_updated := c_last_updated c;
     c_adjudication_result := c_adjudication_result c;
     c_approved_amount := c_approved_amount c;
     c_denial_reason := c_denial_reason c;
     c_payment_amount := c_payment_amount c;
     c_payment_date := c_payment_date c; c_appeal_id := c_appeal_id c;
     c_appeal_status := c_appeal_status c;
     c_appeal_date := c_appeal_date c |}.

Definition set_clearinghouse_id (v : string) (c : Claim) : Claim :=
  {| c_status := c_status c; c_submission_date := c_submission_date c;
     c_claim_data := c_claim_data c; c_ai_analysis := c_ai_analysis c;
     c_clearinghouse := c_clearinghouse c; c_clearinghouse_id := Some v;
     c_last_updated := c_last_updated c;
     c_adjudication_result := c_adjudication_result c;
     c_approved_amount := c_approved_amount c;
     c_denial_reason := c_denial_reason c;
     c_payment_amount := c_payment_amount c;
     c_payment_date := c_payment_date c; c_appeal_id := c_appeal_id c;
     c_appeal_status := c_appeal_status c;
     c_appeal_date := c_appeal_date c |}.

Definition set_last_updated (v : string) (c : Claim) : Claim :=
  {| c_status := c_status c; c_submission_date := c_submission_date c;
     c_claim_data := c_claim_data c; c_ai_analysis := c_ai_analysis c;
     c_clearinghouse := c_clearinghouse c;
     c_clearinghouse_id := c_clearinghouse_id c; c_last_updated := Some v;
     c_adjudication_result := c_adjudication_result c;
     c_approved_amount := c_approved_amount c;
     c_denial_reason := c_denial_reason c;
     c_payment_amount := c_payment_amount c;
     c_payment_date := c_payment_date c; c_appeal_id := c_appeal_id c;
     c_appeal_status := c_appeal_status c;
     c_appeal_date := c_appeal_date c |}.

Definition set_adjudication_result (v : string) (c : Claim) : Claim :=
  {| c_status := c_status c; c_submission_date := c_submission_date c;
     c_claim_data := c_claim_data c; c_ai_analysis := c_ai_analysis c;
     c_clearinghouse := c_clearinghouse c;
     c_clearinghouse_id := c_clearinghouse_id c;
     c_last_updated := c_last_updated c; c_adjudication_result := Some v;
     c_approved_amount := c_approved_amount c;
     c_denial_reason := c_denial_reason c;
     c_payment_amount := c_payment_amount c;
     c_payment_date := c_payment_date c; c_appeal_id := c_appeal_id c;
     c_appeal_status := c_appeal_status c;
     c_appeal_date := c_appeal_date c |}.

Definition set_approved_amount (v : Q) (c : Claim) : Claim :=
  {| c_status := c_status c; c_submission_date := c_submission_date c;
     c_claim_data := c_claim_data c; c_ai_analysis := c_ai_analysis c;
     c_clearinghouse := c_clearinghouse c;
     c_clearinghouse_id := c_clearinghouse_id c;
     c_last_updated := c_last_updated c;
     c_adjudication_result := c_adjudication_result c;
     c_approved_amount := Some v; c_denial_reason := c_denial_reason c;
     c_payment_amount := c_payment_amount c;
     c_payment_date := c_payment_date c; c_appeal_id := c_appeal_id c;
     c_appeal_status := c_appeal_status c;
     c_appeal_date := c_appeal_date c |}.

Definition set_denial_reason (v : string) (c : Claim) : Claim :=
  {| c_status := c_status c; c_submission_date := c_submission_date c;
     c_claim_data := c_claim_data c; c_ai_analysis := c_ai_analysis c;
     c_clearinghouse := c_clearinghouse c;
     c_clearinghouse_id := c_clearinghouse_id c;
     c_last_updated := c_last_updated c;
     c_adjudication_result := c_adjudication_result c;
     c_approved_amount := c_approved_amount c; c_denial_reason := Some v;
     c_payment_amount := c_payment_amount c;
     c_payment_date := c_payment_date c; c_appeal_id := c_appeal_id c;
     c_appeal_status := c_appeal_status c;
     c_appeal_date := c_appeal_date c |}.

Definition set_payment_amount (v : Q) (c : Claim) : Claim :=
  {| c_status := c_status c; c_submission_date := c_submission_date c;
     c_claim_data := c_claim_data c; c_ai_analysis := c_ai_analysis c;
     c_clearinghouse := c_clearinghouse c;
     c_clearinghouse_id := c_clearinghouse_id c;
     c_last_updated := c_last_updated c;
     c_adjudication_result := c_adjudication_result c;
     c_approved_amount := c_approved_amount c;
     c_denial_reason := c_denial_reason c; c_payment_amount := Some v;
     c_payment_date := c_payment_date c; c_appeal_id := c_appeal_id c;
     c_appeal_status := c_appeal_status c;
     c_appeal_date := c_appeal_date c |}.

Definition set_payment_date (v : string) (c : Claim) : Claim :=
  {| c_status := c_status c; c_submission_date := c_submission_date c;
     c_claim_data := c_claim_data c; c_ai_analysis := c_ai_analysis c;
     c_clearinghouse := c_clearinghouse c;
     c_clearinghouse_id := c_clearinghouse_id c;
     c_last_updated := c_last_updated c;
     c_adjudication_result := c_adjudication_result c;
     c_approved_amount := c_approved_amount c;
     c_denial_reason := c_denial_reason c;
     c_payment_amount := c_payment_amount c; c_payment_date := Some v;
     c_appeal_id := c_appeal_id c; c_appeal_status := c_appeal_status c;
     c_appeal_date := c_appeal_date c |}.

Definition set_appeal_id (v : string) (c : Claim) : Claim :=
  {| c_status := c_status c; c_submission_date := c_submission_date c;
     c_claim_data := c_claim_data c; c_ai_analysis := c_ai_analysis c;
     c_clearinghouse := c_clearinghouse c;
     c_clearinghouse_id := c_clearinghouse_id c;
     c_last_updated := c_last_updated c;
     c_adjudication_result := c_adjudication_result c;
     c_approved_amount := c_approved_amount c;
     c_denial_reason := c_denial_reason c;
     c_payment_amount := c_payment_amount c;
     c_payment_date := c_payment_date c; c_appeal_id := Some v;
     c_appeal_status := c_appeal_status c;
     c_appeal_date := c_appeal_date c |}.

Definition set_appeal_status (v : string) (c : Claim) : Claim :=
  {| c_status := c_status c; c_submission_date := c_submission_date c;
     c_claim_data := c_claim_data c; c_ai_analysis := c_ai_analysis c;
     c_clearinghouse := c_clearinghouse c;
     c_clearinghouse_id := c_clearinghouse_id c;
     c_last_updated := c_last_updated c;
     c_adjudication_result := c_adjudication_result c;
     c_approved_amount := c_approved_amount c;
     c_denial_reason := c_denial_reason c;
     c_payment_amount := c_payment_amount c;
     c_payment_date := c_payment_date c; c_appeal_id := c_appeal_id c;
     c_appeal_status := Some v; c_appeal_date := c_appeal_date c |}.

Definition set_appeal_date (v : string) (c : Claim) : Claim :=
  {| c_status := c_status c; c_submission_date := c_submission_date c;
     c_claim_data := c_claim_data c; c_ai_analysis := c_ai_analysis c;
     c_clearinghouse := c_clearinghouse c;
     c_clearinghouse_id := c_clearinghouse_id c;
     c_last_updated := c_last_updated c;
     c_adjudication_result := c_adjudication_result c;
     c_approved_amount := c_approved_amount c;
     c_denial_reason := c_denial_reason c;
     c_payment_amount := c_payment_amount c;
     c_payment_date := c_payment_date c; c_appeal_id := c_appeal_id c;
     c_appeal_status := c_appeal_status c; c_appeal_date := Some v |}.

(** The state of an [InsuranceProcessor] object together with the clock and
    the source of [random.random()]: the draws to come, and how many were
    taken.  ([clearinghouses] and [payer_connections] are never read.) *)
Record InsuranceProcessor := {
  claim_tracker : gmap string Claim;
  clock : nat;
  random_source : nat → Q;
  random_used : nat
}.

Definition with_tracker (m : gmap string Claim) (st : InsuranceProcessor)
    : InsuranceProcessor :=
  {| claim_tracker := m; clock := clock st;
     random_source := random_source st; random_used := random_used st |}.

(** [datetime.now()] *)
Definition datetime_now : M InsuranceProcessor nat :=
  fun st =>
    ({| claim_tracker := claim_tracker st; clock := S (clock st);
        random_source := random_source st; random_used := random_used st |},
     inr (clock st)).

(** What [random.random()] makes of the next number [q] of the source: the
    double [k / 2^53] of 53 random bits [k], the 53 binary places of
    [q]. *)
Definition random_draw (q : Q) : Q := Qfloor (q * inject_Z (2 ^ 53)) # 2 ^ 53.

(** [random.random()] *)
Definition random_random : M InsuranceProcessor Q :=
  fun st =>
    ({| claim_tracker := claim_tracker st; clock := clock st;
        random_source := random_source st; random_used := S (random_used st) |},
     inr (random_draw (random_source st (random_used st)))).

(** [x < v] for a float [x]: defined against numbers only. *)
Definition py_float_lt (x : Q) (v : pyval) : exn + bool :=
  match v with
  | VInt z => inr (Qltb x (inject_Z z))
  | VFloat q => inr (Qltb x q)
  | VStr _ => inl (TypeError "'<' not supported between instances of 'float' and 'str'")
  | VNone => inl (TypeError "'<' not supported between instances of 'float' and 'NoneType'")
  end.

(** [self.claim_tracker[claim_id][key] = v] *)
Definition update_claim (claim_id : string) (upd : Claim → Claim)
    : M InsuranceProcessor unit :=
  fun st =>
    match claim_tracker st !! claim_id with
    | Some _ => (with_tracker (alter upd claim_id (claim_tracker st)) st, inr tt)
    | None => (st, inl (KeyError claim_id))
    end.

(** ** Coroutines *)

(** A coroutine between two suspensions runs without interruption.  A
    suspended coroutine is the sleep it waits for and what it does when
    woken, up to its next suspension: a computation that yields the
    coroutine's next state and the tasks it started with
    [asyncio.create_task]. *)
#[local] Set Warnings "-register-all".
Inductive Task :=
| Finished
| Sleep (secs : nat) (resume : M InsuranceProcessor (Task * list Task)).

Definition _initiate_appeal (claim_id : string) : M InsuranceProcessor unit :=
  let appeal_id := "APP-" +:+ claim_id in
  let* _ := update_claim claim_id (set_appeal_id appeal_id) in
  let* _ := update_claim claim_id (set_appeal_status "submitted") in
  let* t := datetime_now in
  update_claim claim_id (set_appeal_date (isoformat t)).

Definition _handle_adjudication (claim_id : string) : M InsuranceProcessor unit :=
  let* claim_info := gets (fun st => claim_tracker st !! claim_id) in
  let ai_analysis :=
    match claim_info with Some c => c_ai_analysis c | None => ∅ end in
  let approval_likelihood :=
    py_get_default ai_analysis "approval_likelihood" (VInt 75) in
  (* Use AI prediction to simulate result *)
  let* r := random_random in
  let* is_approved := lift_result (py_float_lt (float_mul r 100) approval_likelihood) in
  if is_approved : bool then
    let* _ := update_claim claim_id (set_adjudication_result "approved") in
    update_claim claim_id (set_approved_amount 450%Q)
  else
    let* _ := update_claim claim_id (set_adjudication_result "denied") in
    let* _ := update_claim claim_id
                (set_denial_reason "Medical necessity not established") in
    (* Trigger automatic appeal process *)
    _initiate_appeal claim_id.

Definition _handle_payment (claim_id : string) : M InsuranceProcessor unit :=
  let* claim_info := gets (fun st => claim_tracker st !! claim_id) in
  let adjudication_result := claim_info ≫= c_adjudication_result in
  if bool_decide (adjudication_result = Some "approved") then
    let approved_amount := default 0%Q (claim_info ≫= c_approved_amount) in
    let* _ := update_claim claim_id (set_payment_amount approved_amount) in
    let* t := datetime_now in
    update_claim claim_id (set_payment_date (isoformat t))
  else ret tt.

Definition statuses : list string :=
  ["submitted"; "received"; "processing"; "adjudicated"; "paid"].

(** The body of the loop of [_track_claim_status], after the sleep. *)
Definition track_body (claim_id status : string) : M InsuranceProcessor unit :=
  let* known := gets (fun st => bool_decide (is_Some (claim_tracker st !! claim_id))) in
  if known : bool then
    let* _ := update_claim claim_id (set_status status) in
    let* t := datetime_now in
    let* _ := update_claim claim_id (set_last_updated (isoformat t)) in
    (* Handle specific statuses *)
    if String.eqb status "adjudicated" then _handle_adjudication claim_id
    else if String.eqb status "paid" then _handle_payment claim_id
    else ret tt
  else ret tt.

(** [for status in todo: await asyncio.sleep(300); body] *)
Fixpoint track_loop (claim_id : string) (todo : list string) : Task :=
  match todo with
  | [] => Finished
  | status :: todo' =>
      Sleep 300 (let* _ := track_body claim_id status in
                 ret (track_loop claim_id todo', []))
  end.

Definition _track_claim_status (claim_id : string) : Task :=
  track_loop claim_id statuses.

(** The part of [_submit_to_clearinghouse] after its sleep, followed by
    [rest], what the awaiting coroutine does next. *)
Definition after_clearinghouse (claim_id : string)
    (rest : M InsuranceProcessor (Task * list Task))
    : M InsuranceProcessor (Task * list Task) :=
  let* known := gets (fun st =>
               bool_decide (is_Some (claim_tracker st !! claim_id))) in
  let* _ :=
    if known : bool then
      let* _ := update_claim claim_id (set_status "in_progress") in
      update_claim claim_id (set_clearinghouse_id ("CH-" +:+ claim_id))
    else ret tt in
  rest.

(** [await self._submit_to_clearinghouse(claim_id, claim_data)] followed by
    [rest].  The X12 text built by [_convert_to_x12] is a pure string that
    is not used afterwards. *)
Definition _submit_to_clearinghouse (claim_id : string)
    (claim_data : gmap string pyval)
    (rest : M InsuranceProcessor (Task * list Task))
    : M InsuranceProcessor (Task * list Task) :=
  ret (Sleep 2 (after_clearinghouse claim_id rest), []).

(** [f"CLM-{now:%Y%m%d%H%M%S}-{str(uuid.uuid4())[:8]}"], the eight
    characters of the UUID being given. *)
Definition new_claim_id (t : nat) (uuid8 : string) : string :=
  "CLM-" +:+ strftime t +:+ "-" +:+ uuid8.

(** [submit_claim], up to its first suspension.  Its return value, the
    claim id, goes to a caller that drops it. *)
Definition submit_claim (claim_data ai_analysis : gmap string pyval)
    (uuid8 : string) : M InsuranceProcessor (Task * list Task) :=
  let* t := datetime_now in
  let claim_id := new_claim_id t uuid8 in
  (* Store claim for tracking *)
  let* t' := datetime_now in
  let* _ := modify (fun st =>
    with_tracker
      (<[claim_id :=
           {| c_status := "submitted"; c_submission_date := isoformat t';
              c_claim_data := claim_data; c_ai_analysis := ai_analysis;
              c_clearinghouse := "availity"; c_clearinghouse_id := None;
              c_last_updated := None; c_adjudication_result := None;
              c_approved_amount := None; c_denial_reason := None;
              c_payment_amount := None; c_payment_date := None;
              c_appeal_id := None; c_appeal_status := None;
              c_appeal_date := None |}]> (claim_tracker st)) st) in
  (* Submit to clearinghouse (mock for development) *)
  _submit_to_clearinghouse claim_id claim_data
    ((* Schedule status checking *)
     ret (Finished, [_track_claim_status claim_id])).

(** What [get_claim_status] returns. *)
Record ClaimStatus := {
  r_claim_id : string;
  r_status : string;
  r_submission_date : string;
  r_last_updated : option string;
  r_adjudication_result : option string;
  r_approved_amount : option Q;
  r_payment_amount : option Q;
  r_payment_date : option string;
  r_denial_reason : option string;
  r_appeal_id : option string;
  r_appeal_status : option string
}.

Definition get_claim_status (claim_id : string) : M InsuranceProcessor ClaimStatus :=
  fun st =>
    match claim_tracker st !! claim_id with
    | None => (st, inl (Exception ("Claim " +:+ claim_id +:+ " not found")))
    | Some claim_info =>
        (st, inr {| r_claim_id := claim_id;
                    r_status := c_status claim_info;
                    r_submission_date := c_submission_date claim_info;
                    r_last_updated := c_last_updated claim_info;
                    r_adjudication_result := c_adjudication_result claim_info;
                    r_approved_amount := c_approved_amount claim_info;
                    r_payment_amount := c_payment_amount claim_info;
                    r_payment_date := c_payment_date claim_info;
                    r_denial_reason := c_denial_reason claim_info;
                    r_appeal_id := c_appeal_id claim_info;
                    r_appeal_status := c_appeal_status claim_info |})
    end.

(** ** The event loop *)

(** The processor and the tasks of the event loop, finished ones
    included. *)
Record World := {
  proc : InsuranceProcessor;
  pool : list Task
}.

(** A request arrives: [submit_claim] runs up to its first suspension. *)
Definition request (claim_data ai_analysis : gmap string pyval) (uuid8 : string)
    (w : World) : World :=
  match submit_claim claim_data ai_analysis uuid8 (proc w) with
  | (st, inr (task, started)) => {| proc := st; pool := pool w ++ task :: started |}
  | (st, inl _) => {| proc := st; pool := pool w |}
  end.

(** The event loop wakes task [i], which runs up to its next suspension; a
    task that raises is done. *)
Definition wake (i : nat) (w : World) : World :=
  match pool w !! i with
  | Some (Sleep _ resume) =>
      match resume (proc w) with
      | (st, inr (task, started)) =>
          {| proc := st; pool := <[i := task]> (pool w) ++ started |}
      | (st, inl _) => {| proc := st; pool := <[i := Finished]> (pool w) |}
      end
  | _ => w
  end.

(** One step of the system.  Sleeps may end in any order.  The id of a
    new claim is one that is not in use: the eight characters come from a
    random UUID. *)
Inductive step : World → World → Prop :=
| step_request w claim_data ai_analysis uuid8 :
    claim_tracker (proc w) !! new_claim_id (clock (proc w)) uuid8 = None →
    step w (request claim_data ai_analysis uuid8 w)
| step_wake w i : step w (wake i w).

(** [InsuranceProcessor()] on an idle event loop. *)
Definition init (random_source : nat → Q) : World :=
  {| proc := {| claim_tracker := ∅; clock := 0%nat;
                random_source := random_source; random_used := 0%nat |};
     pool := [] |}.

Definition reachable (w : World) : Prop := ∃ rs, rtc step (init rs) w.

(** ** Vocabulary for the properties of the claim table *)

(** Where the coroutine that owns a claim is suspended: in the sleep of
    the clearinghouse submission, or in the sleep before the write of
    [statuses[n]]. *)
Inductive phase :=
| AtClearinghouse
| Tracking (n : nat).

Definition task_of (claim_id : string) (ph : phase) : Task :=
  match ph with
  | AtClearinghouse =>
      Sleep 2 (after_clearinghouse claim_id
                 (ret (Finished, [_track_claim_status claim_id])))
  | Tracking n => track_loop claim_id (drop n statuses)
  end.

(** Nothing of the adjudication or the payment is recorded yet. *)
Definition pristine (c : Claim) : Prop :=
  c_adjudication_result c = None ∧ c_approved_amount c = None ∧
  c_denial_reason c = None ∧ c_payment_amount c = None ∧
  c_payment_date c = None ∧ c_appeal_id c = None ∧
  c_appeal_status c = None ∧ c_appeal_date c = None.

(** The record of a claim whose coroutine is suspended at [ph]. *)
Definition phase_ok (ph : phase) (c : Claim) : Prop :=
  match ph with
  | AtClearinghouse =>
      c_status c = "submitted" ∧ c_last_updated c = None ∧ pristine c
  | Tracking 0 =>
      c_status c = "in_progress" ∧ c_last_updated c = None ∧ pristine c
  | Tracking 1 =>
      c_status c = "submitted" ∧ is_Some (c_last_updated c) ∧ pristine c
  | Tracking 2 =>
      c_status c = "received" ∧ is_Some (c_last_updated c) ∧ pristine c
  | Tracking 3 =>
      c_status c = "processing" ∧ is_Some (c_last_updated c) ∧ pristine c
  | Tracking 4 =>
      c_status c = "adjudicated" ∧ is_Some (c_last_updated c) ∧
      c_payment_amount c = None ∧ c_payment_date c = None ∧
      is_Some (c_adjudication_result c)
  | Tracking _ => False
  end.

(** What holds of every record at every moment. *)
Definition claim_ok (c : Claim) : Prop :=
  (c_status c = "in_progress" ∨ c_status c ∈ statuses) ∧
  (c_last_updated c = None →
     c_status c = "submitted" ∨ c_status c = "in_progress") ∧
  (is_Some (c_last_updated c) → c_status c ∈ statuses) ∧
  (c_status c ∈ ["submitted"; "in_progress"; "received"; "processing"] →
     c_adjudication_result c = None) ∧
  (∀ v, c_adjudication_result c = Some v → v = "approved" ∨ v = "denied") ∧
  (is_Some (c_appeal_id c) ↔ c_adjudication_result c = Some "denied") ∧
  (is_Some (c_appeal_status c) ↔ c_adjudication_result c = Some "denied") ∧
  (is_Some (c_payment_amount c) ↔
     c_adjudication_result c = Some "approved" ∧ c_status c = "paid") ∧
  (is_Some (c_payment_date c) ↔
     c_adjudication_result c = Some "approved" ∧ c_status c = "paid").

(** How one step may change the status of a record: the hand-off to the
    clearinghouse, the first write of the background progression, or one
    position forward in [statuses]. *)
Definition status_step (c c' : Claim) : Prop :=
  (c_last_updated c = None ∧ c_status c = "submitted" ∧
   c_status c' = "in_progress" ∧ c_last_updated c' = None) ∨
  (c_last_updated c = None ∧ c_status c = "in_progress" ∧
   c_status c' = "submitted" ∧ is_Some (c_last_updated c')) ∨
  (is_Some (c_last_updated c) ∧ is_Some (c_last_updated c') ∧
   ∃ n, statuses !! n = Some (c_status c) ∧
        statuses !! S n = Some (c_status c')).

(** The approval likelihood read by the adjudication is a number. *)
Definition numeric_likelihood (c : Claim) : Prop :=
  match py_get_default (c_ai_analysis c) "approval_likelihood" (VInt 75) with
  | VInt _ | VFloat _ => True
  | _ => False
  end.

(** The risk score of a claim: the number the adjudication compares the
    draw with. *)
Definition risk_score (c : Claim) : option Q :=
  match py_get_default (c_ai_analysis c) "approval_likelihood" (VInt 75) with
  | VInt z => Some (inject_Z z)
  | VFloat q => Some q
  | _ => None
  end.

(** What one step does to a record. *)
Definition record_step (c c' : Claim) : Prop :=
  c' = c ∨
  (status_step c c' ∧
   c_ai_analysis c' = c_ai_analysis c ∧
   c_claim_data c' = c_claim_data c ∧
   (∀ v, c_adjudication_result c = Some v → c_adjudication_result c' = Some v) ∧
   (c_status c' = "adjudicated" → numeric_likelihood c →
      is_Some (c_adjudication_result c'))).

(** The owner of a task: none when the task is finished, else the claim
    it works on and where it is suspended. *)
Definition owned (task : Task) (o : option (string * phase)) : Prop :=
  task = match o with
         | None => Finished
         | Some (claim_id, ph) => task_of claim_id ph
         end.

Definition owners_ok (st : InsuranceProcessor) (pool : list Task)
    (owners : list (option (string * phase))) : Prop :=
  Forall2 owned pool owners ∧
  (∀ i j claim_id ph ph',
     owners !! i = Some (Some (claim_id, ph)) →
     owners !! j = Some (Some (claim_id, ph')) → i = j) ∧
  (∀ i claim_id ph,
     owners !! i = Some (Some (claim_id, ph)) →
     ∃ c, claim_tracker st !! claim_id = Some c ∧ phase_ok ph c).

(** A woken task that is over: it raised, or it returned without starting
    anything. *)
Definition out_dead (out : exn + (Task * list Task)) : Prop :=
  (∃ e, out = inl e) ∨ out = inr (Finished, []).

(** The invariant of the system: every record is well formed, and the
    live tasks work on distinct claims, each record being in the state its
    task expects. *)
Definition world_ok (w : World) : Prop :=
  (∀ claim_id c, claim_tracker (proc w) !! claim_id = Some c → claim_ok c) ∧
  ∃ owners, owners_ok (proc w) (pool w) owners.

(** A scenario: one claim alone on the event loop, after its request and
    [n] wake-ups of its coroutines ([submit_claim] is task 0, the
    background progression task 1). *)
Fixpoint lone_claim (rs : nat → Q) (ai_analysis : gmap string pyval) (n : nat)
    : World :=
  match n with
  | O => request ∅ ai_analysis "0a1b2c3d" (init rs)
  | S m => wake (match m with O => 0 | _ => 1 end) (lone_claim rs ai_analysis m)
  end.

End Insurance.

(** * ai_agent.py *)

Module AIAgent.

(** The longest prefix of [s] made of digits, and what follows it. *)
Fixpoint span_digits (s : string) : string * string :=
  match s with
  | EmptyString => (EmptyString, EmptyString)
  | String c s' =>
      if is_digit c then
        let '(ds, rest) := span_digits s' in (String c ds, rest)
      else (EmptyString, s)
  end.

(** [re.search(r'(\d+)%', s)]: group 1 of the leftmost match, if any.  At
    a given start the greedy [\d+] takes the whole run of digits; a shorter
    run is followed by a digit, never by ['%'], so backtracking finds
    nothing more.  The text is ASCII: on Python's [str], [\d] also accepts
    the decimal digits of other scripts. *)
Fixpoint re_search_digits_percent (s : string) : option string :=
  match s with
  | EmptyString => None
  | String _ s' =>
      match span_digits s with
      | (String d ds, String p _) =>
          if Ascii.eqb p "%" then Some (String d ds)
          else re_search_digits_percent s'
      | _ => re_search_digits_percent s'
      end
  end.

(** [int(s)] on decimal digits. *)
Definition py_int (s : string) : exn + Z :=
  match s with
  | EmptyString => inl (ValueError "invalid literal for int()")
  | _ =>
      match digits_value s 0 with
      | Some n => inr n
      | None => inl (ValueError "invalid literal for int()")
      end
  end.

Definition _extract_approval_likelihood (analysis : string) : exn + Z :=
  match re_search_digits_percent analysis with
  | Some group1 => py_int group1
  | None => inr 75 (* Default *)
  end.

(** ** Vocabulary *)

Fixpoint all_digits (s : string) : bool :=
  match s with
  | EmptyString => true
  | String c s' => is_digit c && all_digits s'
  end.

(** An 'N%' pattern occurs in [s]: one or more digits followed by a
    percent sign. *)
Definition percent_pattern_occurs (s : string) : Prop :=
  ∃ pre ds post,
    s = pre +:+ ds +:+ "%" +:+ post ∧ ds ≠ EmptyString ∧ all_digits ds = true.

(** ** Risk factors and recommendations *)

(** [c.lower()] and [c.upper()] on an ASCII character; [is_letter c] says
    that [c] is cased. *)
Definition is_upper (c : ascii) : bool :=
  ((65 <=? nat_of_ascii c) && (nat_of_ascii c <=? 90))%nat.

Definition is_lower (c : ascii) : bool :=
  ((97 <=? nat_of_ascii c) && (nat_of_ascii c <=? 122))%nat.

Definition is_letter (c : ascii) : bool := is_upper c || is_lower c.

Definition lower_char (c : ascii) : ascii :=
  if is_upper c then ascii_of_nat (nat_of_ascii c + 32) else c.

Definition upper_char (c : ascii) : ascii :=
  if is_lower c then ascii_of_nat (nat_of_ascii c - 32) else c.

(** [s.lower()] on ASCII text. *)
Fixpoint lower (s : string) : string :=
  match s with
  | EmptyString => EmptyString
  | String c s' => String (lower_char c) (lower s')
  end.

(** [s.title()] on ASCII text: a letter that follows a letter is lowered,
    any other letter is raised.  [after_letter] says that the character
    before [s] is a letter. *)
Fixpoint title_from (after_letter : bool) (s : string) : string :=
  match s with
  | EmptyString => EmptyString
  | String c s' =>
      String (if after_letter then lower_char c else upper_char c)
             (title_from (is_letter c) s')
  end.

Definition title (s : string) : string := title_from false s.

(** [s.startswith(p)] *)
Fixpoint startswith (p s : string) : bool :=
  match p, s with
  | EmptyString, _ => true
  | String a p', String b s' => Ascii.eqb a b && startswith p' s'
  | String _ _, EmptyString => false
  end.

(** [sub in s] *)
Fixpoint contains (sub s : string) : bool :=
  startswith sub s ||
  match s with
  | EmptyString => false
  | String _ s' => contains sub s'
  end.

Definition risk_keywords : list string :=
  ["denial"; "missing"; "incorrect"; "unauthorized"; "documentation"].

Definition _identify_risk_factors (analysis : string) : list string :=
  fold_left
    (fun risks keyword =>
       if contains keyword (lower analysis)
       then (risks ++ [title keyword +:+ " issues identified"])%list
       else risks)
    risk_keywords [].

Definition _extract_recommendations (analysis : string) : list string :=
  let recommendations :=
    [ "Verify prior authorization requirements";
      "Ensure documentation supports medical necessity";
      "Review code selection for accuracy";
      "Check patient eligibility and benefits" ] in
  take 2 recommendations. (* Return top 2 *)

(** ** Vocabulary *)

(** The last character of [s] is a digit. *)
Fixpoint ends_with_digit (s : string) : bool :=
  match s with
  | EmptyString => false
  | String c EmptyString => is_digit c
  | String _ s' => ends_with_digit s'
  end.

(** [sub] occurs in [s]. *)
Definition occurs_in (sub s : string) : Prop :=
  ∃ pre post, s = pre +:+ sub +:+ post.

End AIAgent.

(** * main.py *)

Module Main.

(** What [schedule_billing_followup] answers. *)
Record FollowupScheduled := {
  fs_status : string;
  fs_followup_id : string
}.

(** [POST /api/billing/follow-up].  The follow-up is handed to the
    background tasks, which run it once the answer is made; what a
    background task raises goes to the log of the server, not to the
    client. *)
Definition schedule_billing_followup (invoice_id : string) (days_overdue : Z)
    (follow_up_type_ : string)
    : M Billing.BillingAutomation FollowupScheduled :=
  fun st =>
    (fst (Billing.schedule_followup invoice_id days_overdue follow_up_type_ st),
     inr {| fs_status := "scheduled";
            fs_followup_id := "FU-" +:+ invoice_id |}).

End Main.

(** * Properties *)

Lemma alter_as_insert {A} (g : A → A) (k : string) (x : A) (m : gmap string A) :
  m !! k = Some x → alter g k m = <[k := g x]> m.
Proof.
  intros Hx. apply map_eq. intros j. rewrite lookup_alter, lookup_insert.
  case_decide; [subst; now rewrite Hx|reflexivity].
Qed.

Lemma Qltb_spec x y : Qltb x y = true ↔ (x < y)%Q.
Proof. unfold Qltb, Qlt. apply Z.ltb_lt. Qed.

(** ** Rounding to a double *)

Module FloatProofs.

Import Insurance.


Lemma pow2_pos e : (0 < pow2 e)%Q.
Proof. apply Qpower_0_lt. reflexivity. Qed.

Lemma pow2_add a b : (pow2 (a + b) == pow2 a * pow2 b)%Q.
Proof. apply Qpower_plus. discriminate. Qed.

Lemma pow2_le a b : a <= b → (pow2 a <= pow2 b)%Q.
Proof. intros H. apply Qpower_le_compat_l; [exact H|discriminate]. Qed.

Lemma pow2_lt a b : a < b → (pow2 a < pow2 b)%Q.
Proof. intros H. apply Qpower_lt_compat_l; [exact H|reflexivity]. Qed.

Lemma pow2_lt_inv a b : (pow2 a < pow2 b)%Q → a < b.
Proof. intros H. eapply Qpower_lt_compat_l_inv; [exact H|reflexivity]. Qed.

Lemma pow2_Z n : 0 <= n → (inject_Z (2 ^ n) == pow2 n)%Q.
Proof. intros H. now apply Zpower_Qpower. Qed.

(** [ilog2 q] is the binade of [q]. *)
Lemma ilog2_spec q :
  (0 < q)%Q → (pow2 (ilog2 q) <= q < pow2 (ilog2 q + 1))%Q.
Proof.
  intros Hq. destruct q as [a b]. unfold ilog2. cbn [Qnum Qden].
  assert (Ha : 0 < a) by (unfold Qlt in Hq; simpl in Hq; lia).
  set (la := Z.log2 a). set (lb := Z.log2 (Z.pos b)).
  destruct (Z.log2_spec a Ha) as [Ha1 Ha2]. fold la in Ha1, Ha2.
  destruct (Z.log2_spec (Z.pos b) ltac:(lia)) as [Hb1 Hb2]. fold lb in Hb1, Hb2.
  assert (Hla : 0 <= la) by apply Z.log2_nonneg.
  assert (Hlb : 0 <= lb) by apply Z.log2_nonneg.
  rewrite Zle_Qle, pow2_Z in Ha1, Hb1 by lia.
  rewrite Zlt_Qlt, pow2_Z in Ha2, Hb2 by lia.
  assert (HB : (0 < inject_Z (Z.pos b))%Q) by reflexivity.
  assert (Hlow : (pow2 (la - lb - 1) <= a # b)%Q).
  { rewrite (Qmake_Qdiv a b). apply Qle_shift_div_l; [exact HB|].
    apply Qle_trans with (pow2 (la - lb - 1) * pow2 (Z.succ lb))%Q.
    - apply Qmult_le_l; [apply pow2_pos|]. now apply Qlt_le_weak.
    - rewrite <- pow2_add. replace (la - lb - 1 + Z.succ lb) with la by lia.
      exact Ha1. }
  assert (Hhigh : (a # b < pow2 (la - lb + 1))%Q).
  { rewrite (Qmake_Qdiv a b). apply Qlt_shift_div_r; [exact HB|].
    apply Qlt_le_trans with (pow2 (la - lb + 1) * pow2 lb)%Q.
    - rewrite <- pow2_add. replace (la - lb + 1 + lb) with (Z.succ la) by lia.
      exact Ha2.
    - apply Qmult_le_l; [apply pow2_pos|]. exact Hb1. }
  destruct (Qle_bool (pow2 (la - lb)) (a # b)) eqn:Hle.
  - apply Qle_bool_iff in Hle. split; assumption.
  - split; [exact Hlow|].
    replace (la - lb - 1 + 1) with (la - lb) by lia.
    apply Qnot_le_lt. intros H. apply Qle_bool_iff in H. congruence.
Qed.

Lemma ilog2_unique q e :
  (pow2 e <= q < pow2 (e + 1))%Q → ilog2 q = e.
Proof.
  intros [H1 H2].
  assert (Hq : (0 < q)%Q) by (eapply Qlt_le_trans; [apply pow2_pos|exact H1]).
  destruct (ilog2_spec q Hq) as [H3 H4].
  assert (ilog2 q < e + 1).
  { apply pow2_lt_inv. eapply Qle_lt_trans; eassumption. }
  assert (e < ilog2 q + 1).
  { apply pow2_lt_inv. eapply Qle_lt_trans; eassumption. }
  lia.
Qed.

(** *** Rounding to an integer *)

Lemma inject_Z_succ n : (inject_Z (n + 1) == inject_Z n + 1)%Q.
Proof. rewrite inject_Z_plus. reflexivity. Qed.

Lemma round_half_even_cases x :
  (inject_Z (Qfloor x) <= x < inject_Z (Qfloor x) + 1)%Q ∧
  ((round_half_even x = Qfloor x ∧ (x - inject_Z (Qfloor x) <= 1 # 2)%Q ∧
    ((x - inject_Z (Qfloor x) == 1 # 2)%Q → Z.even (Qfloor x) = true)) ∨
   (round_half_even x = Qfloor x + 1 ∧ (1 # 2 <= x - inject_Z (Qfloor x))%Q ∧
    ((x - inject_Z (Qfloor x) == 1 # 2)%Q → Z.even (Qfloor x) = false))).
Proof.
  split.
  - split; [apply Qfloor_le|]. rewrite <- inject_Z_succ. apply Qlt_floor.
  - unfold round_half_even.
    destruct (Qcompare_spec (x - inject_Z (Qfloor x)) (1 # 2)) as [He|Hl|Hg].
    + destruct (Z.even (Qfloor x)) eqn:Hev.
      * left. split; [reflexivity|]. split; [rewrite He; apply Qle_refl|auto].
      * right. split; [reflexivity|]. split; [rewrite He; apply Qle_refl|auto].
    + left. split; [reflexivity|]. split; [now apply Qlt_le_weak|].
      intros He. rewrite He in Hl. discriminate Hl.
    + right. split; [reflexivity|]. split; [now apply Qlt_le_weak|].
      intros He. rewrite He in Hg. discriminate Hg.
Qed.

Lemma round_half_even_error x :
  (- (1 # 2) <= x - inject_Z (round_half_even x) <= 1 # 2)%Q.
Proof.
  destruct (round_half_even_cases x) as [[H1 H2] [(-> & H3 & _)|(-> & H3 & _)]].
  - split; lra.
  - rewrite inject_Z_succ. split; lra.
Qed.

Lemma round_half_even_le x N : (x <= inject_Z N)%Q → round_half_even x <= N.
Proof.
  intros Hx.
  destruct (round_half_even_cases x) as [[H1 H2] [(-> & H3 & _)|(-> & H3 & _)]].
  - rewrite Zle_Qle. lra.
  - assert (Qfloor x < N); [|lia]. rewrite Zlt_Qlt. lra.
Qed.

Lemma round_half_even_ge x N : (inject_Z N <= x)%Q → N <= round_half_even x.
Proof.
  intros Hx.
  destruct (round_half_even_cases x) as [[H1 H2] [(-> & H3 & _)|(-> & H3 & _)]].
  - assert (N < Qfloor x + 1); [|lia]. rewrite Zlt_Qlt, inject_Z_succ. lra.
  - assert (N < Qfloor x + 1); [|lia]. rewrite Zlt_Qlt, inject_Z_succ. lra.
Qed.

(** Below an even integer [M], the last number that is not rounded to [M]
    or beyond is half way to the integer before, excluded. *)
Lemma round_half_even_lt x M :
  Z.even M = true →
  round_half_even x < M ↔ (x < inject_Z M - (1 # 2))%Q.
Proof.
  intros Hev.
  destruct (round_half_even_cases x) as [[H1 H2] [(-> & H3 & H4)|(-> & H3 & H4)]].
  - split.
    + intros Hlt.
      destruct (Qlt_le_dec (x - inject_Z (Qfloor x)) (1 # 2)) as [Hd|Hd].
      * assert (Hn : Qfloor x + 1 <= M) by lia.
        rewrite Zle_Qle, inject_Z_succ in Hn. lra.
      * assert (He : (x - inject_Z (Qfloor x) == 1 # 2)%Q) by (apply Qle_antisym; assumption).
        specialize (H4 He).
        assert (Hn : Qfloor x + 2 <= M).
        { destruct (Z.eq_dec (Qfloor x + 1) M) as [<-|]; [|lia].
          rewrite Z.even_add, H4 in Hev. discriminate Hev. }
        rewrite Zle_Qle, inject_Z_plus in Hn.
        change (inject_Z 2) with 2%Q in Hn. lra.
    + intros Hlt. rewrite Zlt_Qlt. lra.
  - split.
    + intros Hlt. assert (Hn : Qfloor x + 1 + 1 <= M) by lia.
      rewrite Zle_Qle, !inject_Z_succ in Hn. lra.
    + intros Hlt.
      rewrite Zlt_Qlt, inject_Z_succ. lra.
Qed.

(** *** Rounding to a double *)

Lemma round_double_zero q : (q == 0)%Q → round_double q = 0%Q.
Proof. intros H. unfold round_double. apply Qeq_bool_iff in H. now rewrite H. Qed.

(** In the binade [e] of the normal range, the doubles are the multiples
    of [2^(e-52)]. *)
Lemma round_double_binade q e :
  (pow2 e <= q < pow2 (e + 1))%Q → -1022 <= e →
  round_double q
    = (inject_Z (round_half_even (q / pow2 (e - 52))) * pow2 (e - 52))%Q.
Proof.
  intros [H1 H2] He.
  assert (Hq : (0 < q)%Q) by (eapply Qlt_le_trans; [apply pow2_pos|exact H1]).
  unfold round_double.
  destruct (Qeq_bool q 0) eqn:Hz.
  { apply Qeq_bool_iff in Hz. rewrite Hz in Hq. discriminate Hq. }
  assert (Habs : ilog2 (Qabs q) = e).
  { apply ilog2_unique. rewrite (Qabs_pos q) by now apply Qlt_le_weak. auto. }
  rewrite Habs. cbv zeta. now rewrite Z.max_l by lia.
Qed.

Lemma round_double_positive q :
  (0 < q)%Q →
  ∃ e, -1022 <= e ∧ ilog2 q <= e ∧ (e = ilog2 q ∨ e = -1022) ∧
       round_double q
         = (inject_Z (round_half_even (q / pow2 (e - 52))) * pow2 (e - 52))%Q.
Proof.
  intros Hq. exists (Z.max (ilog2 q) (-1022)).
  split; [lia|]. split; [lia|]. split; [lia|].
  unfold round_double.
  destruct (Qeq_bool q 0) eqn:Hz.
  { apply Qeq_bool_iff in Hz. rewrite Hz in Hq. discriminate Hq. }
  assert (Habs : ilog2 (Qabs q) = ilog2 q).
  { apply ilog2_unique. rewrite (Qabs_pos q) by now apply Qlt_le_weak.
    now apply ilog2_spec. }
  now rewrite Habs.
Qed.

Lemma div_pow2 q e : (q / pow2 e * pow2 e == q)%Q.
Proof. field. intros H. pose proof (pow2_pos e) as Hp. rewrite H in Hp. discriminate Hp. Qed.

Lemma round_double_nonneg q : (0 <= q)%Q → (0 <= round_double q)%Q.
Proof.
  intros Hq. destruct (Qeq_dec q 0) as [Hz|Hz].
  - rewrite (round_double_zero q Hz). apply Qle_refl.
  - assert (Hpos : (0 < q)%Q).
    { apply Qle_lteq in Hq as [H|H]; [exact H|]. destruct Hz. now symmetry. }
    destruct (round_double_positive q Hpos) as (e & _ & _ & _ & ->).
    apply Qmult_le_0_compat; [|apply Qlt_le_weak, pow2_pos].
    change 0%Q with (inject_Z 0). rewrite <- Zle_Qle.
    apply round_half_even_ge. change (inject_Z 0) with 0%Q.
    apply Qle_shift_div_l; [apply pow2_pos|]. now rewrite Qmult_0_l.
Qed.

(** The rounding error of a positive number below 128 is at most half of
    the distance between the doubles of the last binade, [2^-47]. *)
Lemma round_double_error q :
  (0 <= q < 128)%Q →
  (- (1 # 140737488355328) <= round_double q - q <= 1 # 140737488355328)%Q.
Proof.
  intros [H0 H128]. destruct (Qeq_dec q 0) as [Hz|Hz].
  - rewrite (round_double_zero q Hz), Hz. split; discriminate.
  - assert (Hpos : (0 < q)%Q).
    { apply Qle_lteq in H0 as [H|H]; [exact H|]. destruct Hz. now symmetry. }
    destruct (round_double_positive q Hpos) as (e & He1 & He2 & He3 & ->).
    assert (He : e <= 6).
    { destruct He3 as [->| ->]; [|lia].
      assert (ilog2 q < 7); [|lia]. apply pow2_lt_inv.
      eapply Qle_lt_trans; [apply (ilog2_spec q Hpos)|exact H128]. }
    pose proof (pow2_pos (e - 52)) as Hu.
    pose proof (pow2_le (e - 52) (-46) ltac:(lia)) as Hu'.
    change (pow2 (-46)) with (1 # 70368744177664)%Q in Hu'.
    pose proof (round_half_even_error (q / pow2 (e - 52))) as [Hr1 Hr2].
    pose proof (div_pow2 q (e - 52)) as Hx.
    set (u := pow2 (e - 52)) in *. set (x := (q / u)%Q) in *.
    set (r := inject_Z (round_half_even x)) in *.
    rewrite <- Hx. split; nra.
Qed.

Lemma round_double_low q : (0 < q < 64)%Q → (round_double q <= 64)%Q.
Proof.
  intros [Hpos H64].
  destruct (round_double_positive q Hpos) as (e & He1 & He2 & He3 & ->).
  assert (He : e <= 5).
  { destruct He3 as [->| ->]; [|lia].
    assert (ilog2 q < 6); [|lia]. apply pow2_lt_inv.
    eapply Qle_lt_trans; [apply (ilog2_spec q Hpos)|exact H64]. }
  assert (Hn : (inject_Z (2 ^ (58 - e)) * pow2 (e - 52) == 64)%Q).
  { rewrite pow2_Z by lia. rewrite <- pow2_add.
    replace (58 - e + (e - 52)) with 6 by lia. reflexivity. }
  rewrite <- Hn. apply Qmult_le_compat_r; [|apply Qlt_le_weak, pow2_pos].
  rewrite <- Zle_Qle. apply round_half_even_le.
  apply Qle_shift_div_r; [apply pow2_pos|]. rewrite Hn. now apply Qlt_le_weak.
Qed.

Lemma round_double_high q : (128 <= q)%Q → (128 <= round_double q)%Q.
Proof.
  intros H128.
  assert (Hpos : (0 < q)%Q) by (eapply Qlt_le_trans; [|exact H128]; reflexivity).
  destruct (ilog2_spec q Hpos) as [Hs1 Hs2].
  assert (He : 7 <= ilog2 q).
  { assert (7 < ilog2 q + 1); [|lia]. apply pow2_lt_inv.
    eapply Qle_lt_trans; [exact H128|exact Hs2]. }
  rewrite (round_double_binade q (ilog2 q) (conj Hs1 Hs2)) by lia.
  set (e := ilog2 q) in *.
  assert (Hn : (inject_Z (2 ^ 52) * pow2 (e - 52) == pow2 e)%Q).
  { rewrite pow2_Z by lia. rewrite <- pow2_add.
    replace (52 + (e - 52)) with e by lia. reflexivity. }
  apply Qle_trans with (pow2 e); [apply (pow2_le 7 e He)|].
  rewrite <- Hn. apply Qmult_le_compat_r; [|apply Qlt_le_weak, pow2_pos].
  rewrite <- Zle_Qle. apply round_half_even_ge.
  apply Qle_shift_div_l; [apply pow2_pos|]. now rewrite Hn.
Qed.

Lemma round_double_nonpos q : (q <= 0)%Q → (round_double q <= 0)%Q.
Proof.
  intros Hq. unfold round_double. destruct (Qeq_bool q 0); [apply Qle_refl|].
  cbv zeta. set (u := pow2 _).
  assert (Hu : (0 < u)%Q) by apply pow2_pos.
  assert (Hr : round_half_even (q / u) <= 0).
  { apply round_half_even_le. change (inject_Z 0) with 0%Q.
    apply Qle_shift_div_r; [exact Hu|]. now rewrite Qmult_0_l. }
  rewrite Zle_Qle in Hr. change (inject_Z 0) with 0%Q in Hr. nra.
Qed.

(** A number is rounded below an integer [T] of the binade of 64 exactly
    when it is below the point half way between [T] and the double before
    it: at that point the rounding goes to [T], whose last bit is 0. *)
Lemma round_double_lt_threshold q T :
  64 < T < 128 →
  (round_double q < inject_Z T)%Q ↔ (q < inject_Z T - (1 # 140737488355328))%Q.
Proof.
  intros [HT1 HT2].
  assert (HT1' : (65 <= inject_Z T)%Q) by (change 65%Q with (inject_Z 65); rewrite <- Zle_Qle; lia).
  assert (HT2' : (inject_Z T <= 127)%Q) by (change 127%Q with (inject_Z 127); rewrite <- Zle_Qle; lia).
  destruct (Qlt_le_dec q 64) as [H64|H64].
  - (* below the binade *)
    split; [intros _; lra|]. intros _.
    destruct (Qlt_le_dec 0 q) as [Hpos|Hneg].
    + pose proof (round_double_low q (conj Hpos H64)). lra.
    + pose proof (round_double_nonpos q Hneg). lra.
  - destruct (Qlt_le_dec q 128) as [H128|H128].
    + (* in the binade *)
      rewrite (round_double_binade q 6 (conj H64 H128)) by lia.
      change (pow2 (6 - 52)) with (1 # 70368744177664)%Q.
      set (x := (q / (1 # 70368744177664))%Q).
      assert (Hx : (x == q * 70368744177664)%Q) by (unfold x; field).
      assert (HM : (inject_Z (T * 70368744177664) == inject_Z T * 70368744177664)%Q)
        by (rewrite inject_Z_mult; reflexivity).
      assert (Hev : Z.even (T * 70368744177664) = true)
        by (rewrite Z.even_mul; apply orb_true_r).
      pose proof (round_half_even_lt x _ Hev) as Hiff.
      rewrite Zlt_Qlt in Hiff.
      set (r := inject_Z (round_half_even x)) in *.
      set (M := inject_Z (T * 70368744177664)) in *.
      split.
      * intros H. assert (Hr : (r < M)%Q) by lra.
        apply Hiff in Hr. lra.
      * intros H. assert (Hr : (x < M - (1 # 2))%Q) by lra.
        apply Hiff in Hr. lra.
    + (* beyond the binade *)
      pose proof (round_double_high q H128). split; intros; lra.
Qed.

(** *** A draw times 100 *)

Lemma Qfloor_lt x K : Qfloor x < K ↔ (x < inject_Z K)%Q.
Proof.
  pose proof (Qfloor_le x) as H1. pose proof (Qlt_floor x) as H2.
  rewrite inject_Z_succ in H2. split; intros H.
  - assert (Hn : Qfloor x + 1 <= K) by lia.
    rewrite Zle_Qle, inject_Z_succ in Hn. lra.
  - rewrite Zlt_Qlt. lra.
Qed.

(** For a score [T] of which [T / 100] has 53 binary places, [K / 2^53],
    the product of a draw and 100 is rounded below [T] exactly when the
    draw is below [T / 100]. *)
Lemma scaled_draw_lt rs T K :
  64 < T < 128 → T * 2 ^ 53 = 100 * K →
  (round_double (random_draw rs * 100) < inject_Z T)%Q
  ↔ (rs * inject_Z (2 ^ 53) < inject_Z K)%Q.
Proof.
  intros HT HK. rewrite (round_double_lt_threshold _ T HT), <- Qfloor_lt.
  unfold random_draw. set (k := Qfloor _).
  unfold Qlt, Qminus, Qplus, Qmult, Qopp, inject_Z. cbn [Qnum Qden].
  rewrite !Pos2Z.inj_mul. change (Z.pos (2 ^ 53)) with (2 ^ 53).
  change (2 ^ 53) with 9007199254740992 in *.
  change (Z.pos 140737488355328) with 140737488355328. lia.
Qed.

Lemma draw_lt_75 rs :
  (round_double (random_draw rs * 100) < 75)%Q ↔ (rs < 3 # 4)%Q.
Proof.
  change 75%Q with (inject_Z 75).
  rewrite (scaled_draw_lt rs 75 (3 * 2 ^ 51)) by (lia || reflexivity).
  change (inject_Z (2 ^ 53)) with 9007199254740992%Q.
  change (inject_Z (3 * 2 ^ 51)) with 6755399441055744%Q.
  split; intros; lra.
Qed.

Lemma draw_lt_100 rs :
  (round_double (random_draw rs * 100) < 100)%Q ↔ (rs < 1)%Q.
Proof.
  change 100%Q with (inject_Z 100) at 2.
  rewrite (scaled_draw_lt rs 100 (2 ^ 53)) by (lia || reflexivity).
  change (inject_Z (2 ^ 53)) with 9007199254740992%Q.
  split; intros; lra.
Qed.

Lemma random_draw_range rs :
  (0 <= rs < 1)%Q → (0 <= random_draw rs * 100 < 100)%Q.
Proof.
  intros [H0 H1]. unfold random_draw. set (k := Qfloor _).
  assert (Hk0 : 0 <= k).
  { unfold k. change 0 with (Qfloor 0). apply Qfloor_resp_le.
    change (inject_Z (2 ^ 53)) with 9007199254740992%Q. lra. }
  assert (Hk1 : k < 2 ^ 53).
  { apply Qfloor_lt. change (inject_Z (2 ^ 53)) with 9007199254740992%Q. lra. }
  unfold Qle, Qlt, Qmult. cbn [Qnum Qden].
  rewrite !Pos2Z.inj_mul. change (Z.pos (2 ^ 53)) with (2 ^ 53).
  change (2 ^ 53) with 9007199254740992 in *. lia.
Qed.

End FloatProofs.

(** ** The billing automation *)

Module BillingProofs.

Import Billing.

(** ** The rule table *)

Lemma value_inj t1 t2 : value t1 = value t2 -> t1 = t2.
Proof. destruct t1, t2; simpl; intros H; first [reflexivity | discriminate H]. Qed.

Lemma NoDup_map_In_eq {A B} (f : A -> B) (l : list A) x y :
  List.NoDup (List.map f l) -> In x l -> In y l -> f x = f y -> x = y.
Proof.
  induction l as [|a l IH]; simpl; [tauto|].
  intros Hnd Hx Hy Hf. inversion Hnd as [|? ? Hnotin Hnd']; subst.
  destruct Hx as [->|Hx], Hy as [->|Hy]; auto.
  - exfalso. apply Hnotin. rewrite Hf. now apply List.in_map.
  - exfalso. apply Hnotin. rewrite <- Hf. now apply List.in_map.
Qed.

Lemma py_max_by_spec {A} (key : A -> Z) (xs : list A) (best : A) :
  In (py_max_by key best xs) (best :: xs) /\
  forall x, In x (best :: xs) -> key x <= key (py_max_by key best xs).
Proof.
  revert best. induction xs as [|y ys IH]; intros best; simpl.
  - split; [now left|]. intros x [->|[]]. lia.
  - destruct (IH (if key best <? key y then y else best)) as [Hin Hmax].
    split.
    + destruct Hin as [Heq|Hin]; [|now right; right].
      rewrite <- Heq. destruct (key best <? key y); [right; now left | now left].
    + intros x Hx.
      assert (Hb : key (if key best <? key y then y else best)
                   <= key (py_max_by key (if key best <? key y then y else best) ys))
        by (apply Hmax; now left).
      destruct Hx as [->|[->|Hx]].
      * destruct (Z.ltb_spec (key x) (key y)); lia.
      * destruct (Z.ltb_spec (key best) (key x)); lia.
      * apply Hmax. now right.
Qed.

Section RuleTable.

Variable billing_rules : list BillingRule.
Hypothesis one_rule_per_category :
  List.NoDup (List.map follow_up_type billing_rules).
Hypothesis one_rule_per_threshold :
  List.NoDup (List.map days_after_due billing_rules).

Lemma exact_match days_overdue cat r :
  In r billing_rules -> days_after_due r <= days_overdue ->
  value (follow_up_type r) = cat ->
  get_applicable_rule_in billing_rules days_overdue cat = Some r.
Proof.
  intros Hin Hle Hcat. unfold get_applicable_rule_in.
  destruct (List.find _ billing_rules) as [r'|] eqn:Hfind.
  - apply List.find_some in Hfind as [Hin' Hp].
    apply andb_prop in Hp as [_ Hc]. apply String.eqb_eq in Hc.
    f_equal. apply (NoDup_map_In_eq follow_up_type billing_rules); auto.
    apply value_inj. congruence.
  - exfalso. pose proof (List.find_none _ _ Hfind r Hin) as Hp. simpl in Hp.
    apply Z.leb_le in Hle. rewrite Hle in Hp. simpl in Hp.
    apply String.eqb_neq in Hp. contradiction.
Qed.

Lemma fallback_match days_overdue cat r :
  (forall r', In r' billing_rules -> days_after_due r' <= days_overdue ->
              value (follow_up_type r') <> cat) ->
  In r billing_rules -> days_after_due r <= days_overdue ->
  (forall r', In r' billing_rules -> days_after_due r' <= days_overdue ->
              days_after_due r' <= days_after_due r) ->
  get_applicable_rule_in billing_rules days_overdue cat = Some r.
Proof.
  intros Hno Hin Hle Hmax. unfold get_applicable_rule_in.
  destruct (List.find _ billing_rules) as [r'|] eqn:Hfind.
  - apply List.find_some in Hfind as [Hin' Hp].
    apply andb_prop in Hp as [Hd Hc]. apply String.eqb_eq in Hc.
    apply Z.leb_le in Hd. exfalso. exact (Hno r' Hin' Hd Hc).
  - destruct (List.filter _ billing_rules) as [|a l] eqn:Hf.
    + exfalso. assert (Hr : In r (List.filter (fun r0 => days_after_due r0 <=? days_overdue)
                                               billing_rules))
        by (apply List.filter_In; split; [assumption | now apply Z.leb_le]).
      rewrite Hf in Hr. destruct Hr.
    + destruct (py_max_by_spec days_after_due l a) as [Hm Hge].
      rewrite <- Hf in Hm. apply List.filter_In in Hm as [Hm1 Hm2].
      apply Z.leb_le in Hm2. f_equal.
      apply (NoDup_map_In_eq days_after_due billing_rules); auto.
      apply Z.le_antisymm; [now apply Hmax|].
      apply Hge. rewrite <- Hf. apply List.filter_In. split; [assumption|now apply Z.leb_le].
Qed.

Lemma no_match days_overdue cat :
  (forall r, In r billing_rules -> days_overdue < days_after_due r) ->
  get_applicable_rule_in billing_rules days_overdue cat = None.
Proof.
  intros Hall. unfold get_applicable_rule_in.
  destruct (List.find _ billing_rules) as [r'|] eqn:Hfind.
  - apply List.find_some in Hfind as [Hin' Hp].
    apply andb_prop in Hp as [Hd _]. apply Z.leb_le in Hd.
    specialize (Hall r' Hin'). lia.
  - destruct (List.filter _ billing_rules) as [|a l] eqn:Hf; [reflexivity|].
    assert (Ha : In a (a :: l)) by now left.
    rewrite <- Hf in Ha. apply List.filter_In in Ha as [Ha1 Ha2].
    apply Z.leb_le in Ha2. specialize (Hall a Ha1). lia.
Qed.

End RuleTable.

Lemma table_categories_distinct :
  List.NoDup (List.map follow_up_type _setup_billing_rules).
Proof. simpl. repeat constructor; simpl; intuition discriminate. Qed.

Lemma table_thresholds_distinct :
  List.NoDup (List.map days_after_due _setup_billing_rules).
Proof. simpl. repeat constructor; simpl; intuition discriminate. Qed.

(** C1. For every non-negative [days_overdue] and requested category, the
    rule table returns the rule of the requested category whose threshold
    is at most [days_overdue] when there is one; otherwise the rule with
    the largest threshold at most [days_overdue], whatever its category;
    and nothing when every threshold exceeds [days_overdue].  At 0 days no
    rule applies, and at exactly 7 days a request for gentle yields the
    gentle rule. *)
Theorem rule_table_resolution (days_overdue : Z) (cat : string) :
  0 <= days_overdue ->
  (forall r, In r _setup_billing_rules ->
     days_after_due r <= days_overdue -> value (follow_up_type r) = cat ->
     _get_applicable_rule days_overdue cat = Some r) /\
  ((forall r', In r' _setup_billing_rules -> days_after_due r' <= days_overdue ->
               value (follow_up_type r') <> cat) ->
   forall r, In r _setup_billing_rules -> days_after_due r <= days_overdue ->
     (forall r', In r' _setup_billing_rules -> days_after_due r' <= days_overdue ->
                 days_after_due r' <= days_after_due r) ->
     _get_applicable_rule days_overdue cat = Some r) /\
  ((forall r, In r _setup_billing_rules -> days_overdue < days_after_due r) ->
   _get_applicable_rule days_overdue cat = None) /\
  _get_applicable_rule 0 cat = None /\
  _get_applicable_rule 7 "gentle" =
    Some {| days_after_due := 7; follow_up_type := GENTLE;
            action := "send_reminder"; template_id := "gentle_reminder" |}.
Proof.
  intros _. unfold _get_applicable_rule. repeat split.
  - intros r. apply exact_match. apply table_categories_distinct.
  - intros Hno r. apply fallback_match; auto using table_thresholds_distinct.
  - apply no_match.
Qed.

Lemma rule_table_resolution_witness :
  0 <= 35 /\
  _get_applicable_rule 35 "firm" =
    Some {| days_after_due := 30; follow_up_type := FIRM;
            action := "send_reminder"; template_id := "firm_reminder" |}.
Proof.
  split; [lia|].
  apply (proj1 (rule_table_resolution 35 "firm" ltac:(lia))).
  - simpl. right. left. reflexivity.
  - simpl. lia.
  - reflexivity.
Defined.

(** C2 as stated fails: with an exact category match the first loop of
    [_get_applicable_rule] returns before the fallback is tried, so a
    request for firm at 95 days resolves to the firm rule. *)
Lemma collections_from_90_counterexample :
  _get_applicable_rule 95 "firm" =
    Some {| days_after_due := 30; follow_up_type := FIRM;
            action := "send_reminder"; template_id := "firm_reminder" |} /\
  ~ (forall days_overdue cat, 90 <= days_overdue ->
       exists r, _get_applicable_rule days_overdue cat = Some r /\
                 follow_up_type r = COLLECTIONS).
Proof.
  split; [reflexivity|].
  intros H. destruct (H 95 "firm" ltac:(lia)) as (r & Hr & Hc).
  vm_compute in Hr. injection Hr as <-. discriminate Hc.
Qed.

(** C2, amended.  From 90 days on, every rule's threshold is met, so a
    request naming one of the four categories resolves to the rule of that
    category, and a request naming anything else falls back to the
    collections rule; from 7 to 29 days every request resolves to the gentle
    rule. *)
Theorem rule_table_ranges (days_overdue : Z) (cat : string) :
  (90 <= days_overdue -> forall t, value t = cat ->
     exists r, _get_applicable_rule days_overdue cat = Some r /\
               In r _setup_billing_rules /\ follow_up_type r = t) /\
  (90 <= days_overdue -> (forall t, value t <> cat) ->
     exists r, _get_applicable_rule days_overdue cat = Some r /\
               In r _setup_billing_rules /\ follow_up_type r = COLLECTIONS) /\
  (7 <= days_overdue < 30 ->
     exists r, _get_applicable_rule days_overdue cat = Some r /\
               In r _setup_billing_rules /\ follow_up_type r = GENTLE).
Proof.
  unfold _get_applicable_rule. split; [|split].
  - intros Hd t Ht.
    assert (Hin : exists r, In r _setup_billing_rules /\ follow_up_type r = t).
    { destruct t; simpl; eauto 10. }
    destruct Hin as (r & Hin & Hrt). exists r. split; [|auto].
    apply exact_match; [apply table_categories_distinct | assumption | | congruence].
    simpl in Hin. intuition (subst; simpl; lia).
  - intros Hd Hno.
    exists {| days_after_due := 90; follow_up_type := COLLECTIONS;
              action := "send_to_collections";
              template_id := "collections_notice" |}.
    split; [|split; [|reflexivity]].
    + apply fallback_match.
      * apply table_thresholds_distinct.
      * intros r' _ _. apply Hno.
      * simpl. tauto.
      * simpl. lia.
      * simpl. intros r' Hr' _. intuition (subst; simpl; lia).
    + simpl. tauto.
  - intros Hd.
    exists {| days_after_due := 7; follow_up_type := GENTLE;
              action := "send_reminder"; template_id := "gentle_reminder" |}.
    split; [|split; [|reflexivity]].
    + destruct (String.eqb_spec "gentle" cat) as [Heq|Hne].
      * apply exact_match;
          [apply table_categories_distinct | simpl; tauto | simpl; lia | exact Heq].
      * apply fallback_match.
        -- apply table_thresholds_distinct.
        -- simpl. intros r' Hr' Hle. intuition (subst; simpl in *; try lia; congruence).
        -- simpl. tauto.
        -- simpl. lia.
        -- simpl. intros r' Hr' Hle. intuition (subst; simpl in *; lia).
    + simpl. tauto.
Qed.

Lemma rule_table_ranges_witness :
  (exists r, _get_applicable_rule 95 "firm" = Some r /\
             In r _setup_billing_rules /\ follow_up_type r = FIRM) /\
  (exists r, _get_applicable_rule 95 "urgent" = Some r /\
             In r _setup_billing_rules /\ follow_up_type r = COLLECTIONS) /\
  (exists r, _get_applicable_rule 12 "firm" = Some r /\
             In r _setup_billing_rules /\ follow_up_type r = GENTLE).
Proof.
  split; [|split].
  - apply (proj1 (rule_table_ranges 95 "firm")); [lia | reflexivity].
  - apply (proj1 (proj2 (rule_table_ranges 95 "urgent"))); [lia|].
    intros t; destruct t; discriminate.
  - apply (proj2 (proj2 (rule_table_ranges 12 "firm"))). lia.
Defined.

(** ** The follow-up table *)

Section Preservation.

Context (I : BillingAutomation → Prop).

Lemma preserves_ret {A} (a : A) : preserves I (ret a).
Proof. intros st H. exact H. Qed.

Lemma preserves_lift_result {A} (r : exn + A) : preserves I (lift_result r).
Proof. intros st H. exact H. Qed.

Lemma preserves_gets {A} (f : BillingAutomation → A) : preserves I (gets f).
Proof. intros st H. exact H. Qed.

Lemma preserves_bind {A B} (c : M BillingAutomation A) (k : A → M BillingAutomation B) :
  preserves I c → (∀ a, preserves I (k a)) → preserves I (bind c k).
Proof.
  intros Hc Hk st H. unfold bind. specialize (Hc st H).
  destruct (c st) as [st' [e|a]]; simpl in *; [exact Hc|]. now apply Hk.
Qed.

Lemma preserves_for_each {A} (xs : list A) (body : A → M BillingAutomation unit) :
  (∀ x, preserves I (body x)) → preserves I (for_each xs body).
Proof.
  intros Hb. induction xs as [|x xs IH]; simpl.
  - apply preserves_ret.
  - apply preserves_bind; auto.
Qed.

End Preservation.

Lemma keyed_alter upd k m : keeps_identity upd → keyed m → keyed (alter upd k m).
Proof.
  intros Hupd Hm k' f'. rewrite lookup_alter. case_decide as Hk.
  - subst k'. destruct (m !! k) as [f|] eqn:Hf; simpl; [|discriminate].
    intros [= <-]. destruct (Hupd f) as [-> ->]. now apply Hm.
  - apply Hm.
Qed.

Lemma keyed_insert k f m :
  k = followup_key (f_invoice_id f) (f_follow_up_type f) → keyed m → keyed (<[k:=f]> m).
Proof.
  intros Hk Hm k' f'. rewrite lookup_insert. case_decide as Hkk.
  - intros [= <-]. now subst.
  - apply Hm.
Qed.

Lemma preserves_datetime_now : preserves table_keyed datetime_now.
Proof. intros st H. exact H. Qed.

Lemma preserves_emit e : preserves table_keyed (emit e).
Proof. intros st H. exact H. Qed.

Lemma preserves_followup_at k : preserves table_keyed (followup_at k).
Proof.
  intros st H. unfold followup_at. now destruct (active_followups st !! k).
Qed.

Lemma preserves_update_followup k upd :
  keeps_identity upd → preserves table_keyed (update_followup k upd).
Proof.
  intros Hupd. unfold update_followup. apply preserves_bind.
  - apply preserves_followup_at.
  - intros _ st H. unfold table_keyed in *. simpl. now apply keyed_alter.
Qed.

Lemma keeps_identity_set_status v : keeps_identity (set_status v).
Proof. now intros []. Qed.
Lemma keeps_identity_set_executed_at v : keeps_identity (set_executed_at v).
Proof. now intros []. Qed.
Lemma keeps_identity_set_cancelled_at v : keeps_identity (set_cancelled_at v).
Proof. now intros []. Qed.
Lemma keeps_identity_set_collections_id v : keeps_identity (set_collections_id v).
Proof. now intros []. Qed.
Lemma keeps_identity_set_sent_to_collections v : keeps_identity (set_sent_to_collections v).
Proof. now intros []. Qed.

Create HintDb pres.
#[local] Hint Resolve preserves_ret preserves_lift_result preserves_gets
  preserves_datetime_now preserves_emit preserves_followup_at
  preserves_update_followup keeps_identity_set_status
  keeps_identity_set_executed_at keeps_identity_set_cancelled_at
  keeps_identity_set_collections_id keeps_identity_set_sent_to_collections : pres.

(** Peel one layer of a computation: a bind, a loop, a conditional. *)
Ltac pres_step :=
  match goal with
  | |- preserves _ (bind _ _) => apply preserves_bind; [|intros ?]
  | |- preserves _ (for_each _ _) => apply preserves_for_each; intros ?
  | |- preserves _ (if ?b then _ else _) => destruct b
  | |- preserves _ (match ?o with Some _ => _ | None => _ end) => destruct o
  | |- preserves _ _ => solve [eauto with pres]
  end.

Lemma preserves_channels d :
  preserves table_keyed (_send_email_reminder d) ∧
  preserves table_keyed (_send_sms_reminder d) ∧
  preserves table_keyed (_schedule_phone_call d) ∧
  preserves table_keyed (_send_certified_mail d).
Proof.
  unfold _send_email_reminder, _send_sms_reminder, _schedule_phone_call,
    _send_certified_mail.
  repeat split; repeat pres_step.
Qed.

Lemma preserves_execute k : preserves table_keyed (_execute_followup_action k).
Proof.
  unfold _execute_followup_action, _send_billing_reminder, _send_final_notice,
    _send_to_collections, _create_collections_case.
  repeat pres_step; try (apply preserves_channels).
Qed.

Lemma preserves_store i d c : preserves table_keyed (store_followup i d c).
Proof.
  unfold store_followup, _get_invoice_data.
  repeat pres_step.
  intros st H. unfold table_keyed in *. simpl. now apply keyed_insert.
Qed.

#[local] Hint Resolve preserves_execute preserves_store : pres.

Lemma preserves_schedule i d c : preserves table_keyed (schedule_followup i d c).
Proof. unfold schedule_followup. repeat pres_step. Qed.

Lemma preserves_cancel i : preserves table_keyed (_cancel_followups_for_invoice i).
Proof. unfold _cancel_followups_for_invoice. repeat pres_step. Qed.

Lemma preserves_processor p : preserves table_keyed (call_payment_processor p).
Proof.
  intros st H. unfold call_payment_processor.
  now destruct (payment_processor st p (clock st)).
Qed.

#[local] Hint Resolve preserves_cancel preserves_processor : pres.

Lemma preserves_process_payment i p : preserves table_keyed (process_payment i p).
Proof. unfold process_payment. repeat pres_step. Qed.

Lemma reachable_keyed st : reachable st → table_keyed st.
Proof.
  induction 1 as [st Hempty|st o _ IH|st i d c _ IH|st p _ IH].
  - intros k f. unfold table_keyed. rewrite Hempty, lookup_empty. discriminate.
  - destruct o; simpl.
    + now apply preserves_schedule.
    + now apply preserves_process_payment.
  - now apply preserves_store.
  - now apply preserves_processor.
Qed.

(** C8. In every state the table goes through under any sequence of
    [schedule_followup] and [process_payment] calls, two records of the same
    invoice and category that are both scheduled are one and the same
    entry: at most one record per pair is scheduled. *)
Theorem one_scheduled_per_pair st :
  reachable st →
  ∀ k1 k2 f1 f2,
    active_followups st !! k1 = Some f1 →
    active_followups st !! k2 = Some f2 →
    f_invoice_id f1 = f_invoice_id f2 →
    f_follow_up_type f1 = f_follow_up_type f2 →
    f_status f1 = "scheduled" → f_status f2 = "scheduled" →
    k1 = k2 ∧ f1 = f2.
Proof.
  intros Hreach k1 k2 f1 f2 H1 H2 Hi Hc _ _.
  pose proof (reachable_keyed st Hreach) as Hk.
  assert (k1 = k2) as ->.
  { rewrite (Hk k1 f1 H1), (Hk k2 f2 H2). now rewrite Hi, Hc. }
  split; [reflexivity|congruence].
Qed.

Lemma one_scheduled_per_pair_witness :
  ∃ f, active_followups (fst (store_followup "INV-1" 35 "firm" init))
         !! "BF-INV-1-firm" = Some f ∧
       f_status f = "scheduled" ∧
       ("BF-INV-1-firm" = "BF-INV-1-firm" ∧ f = f).
Proof.
  eexists. split; [vm_compute; reflexivity|]. split; [reflexivity|].
  apply (one_scheduled_per_pair (fst (store_followup "INV-1" 35 "firm" init))
           (reach_stored init "INV-1" 35 "firm" (reach_init init eq_refl))
           "BF-INV-1-firm" "BF-INV-1-firm");
    vm_compute; reflexivity.
Defined.

(** ** Payment and cancellation *)

Lemma update_followup_run k upd st f :
  active_followups st !! k = Some f →
  update_followup k upd st =
    (with_followups (alter upd k (active_followups st)) st, inr tt).
Proof.
  intros H. unfold update_followup, bind, followup_at, modify. now rewrite H.
Qed.

Lemma cancel_twice ts1 ts2 f :
  set_cancelled_at ts2 (set_status "cancelled"
    (set_cancelled_at ts1 (set_status "cancelled" f))) =
  set_cancelled_at ts2 (set_status "cancelled" f).
Proof. now destruct f. Qed.

(** The loop of [_cancel_followups_for_invoice] over keys that are all
    present: it does not raise, it rewrites exactly the listed entries and
    only their status and cancellation stamp. *)
Lemma cancel_loop_run (ks : list string) :
  ∀ st, (∀ k, In k ks → is_Some (active_followups st !! k)) →
  ∃ st',
    for_each ks (λ followup_id,
      let* _ := update_followup followup_id (set_status "cancelled") in
      let* t := datetime_now in
      update_followup followup_id (set_cancelled_at (isoformat t))) st
    = (st', inr tt) ∧
    payment_processor st' = payment_processor st ∧
    outbox st' = outbox st ∧
    ∀ k, (In k ks → ∃ f ts, active_followups st !! k = Some f ∧
                     active_followups st' !! k =
                       Some (set_cancelled_at ts (set_status "cancelled" f))) ∧
         (¬ In k ks → active_followups st' !! k = active_followups st !! k).
Proof.
  induction ks as [|k0 ks IH]; intros st Hall.
  - exists st. simpl. repeat split; tauto.
  - destruct (Hall k0 (or_introl eq_refl)) as [f0 Hf0].
    set (st1 := with_followups
                  (alter (set_cancelled_at (isoformat (clock st))) k0
                     (alter (set_status "cancelled") k0 (active_followups st)))
                  (with_clock (S (clock st)) st)).
    assert (Hlk : ∀ k, active_followups st1 !! k =
                       if decide (k0 = k)
                       then Some (set_cancelled_at (isoformat (clock st))
                                    (set_status "cancelled" f0))
                       else active_followups st !! k).
    { intros k. simpl. destruct (decide (k0 = k)) as [<-|Hne].
      - now rewrite !lookup_alter_eq, Hf0.
      - now rewrite !lookup_alter_ne by assumption. }
    destruct (IH st1) as (st' & Hrun & Hpp & Hout & Hpost).
    { intros k Hk. rewrite Hlk. case_decide; [eauto|]. apply Hall. now right. }
    exists st'. split; [|split; [|split]].
    + cbn [for_each]. unfold bind at 1.
      unfold bind at 1. rewrite (update_followup_run k0 _ st f0 Hf0).
      unfold bind at 1. unfold datetime_now.
      rewrite (update_followup_run k0 _ _ (set_status "cancelled" f0)).
      * exact Hrun.
      * simpl. now rewrite lookup_alter_eq, Hf0.
    + exact Hpp.
    + exact Hout.
    + intros k. destruct (Hpost k) as [Hin Hnot]. split.
      * intros [<-|Hk].
        -- exists f0. destruct (List.in_dec string_dec k0 ks) as [Hk|Hk].
           ++ destruct (Hin Hk) as (f & ts & Hf & Hf').
              rewrite Hlk in Hf. rewrite decide_True in Hf by reflexivity.
              injection Hf as <-. exists ts. split; [exact Hf0|].
              now rewrite Hf', cancel_twice.
           ++ exists (isoformat (clock st)). split; [exact Hf0|].
              rewrite (Hnot Hk), Hlk. now rewrite decide_True.
        -- destruct (Hin Hk) as (f & ts & Hf & Hf').
           rewrite Hlk in Hf. case_decide as Hk0.
           ++ subst k. injection Hf as <-. exists f0, ts. split; [exact Hf0|].
              now rewrite Hf', cancel_twice.
           ++ eauto.
      * intros Hk. rewrite Hnot by (intros ?; apply Hk; now right).
        rewrite Hlk. rewrite decide_False; [reflexivity|].
        intros ->. apply Hk. now left.
Qed.

Lemma to_cancel_spec invoice_id (m : gmap string Followup) k :
  In k (List.map fst
          (List.filter (λ '(fid, followup),
                          String.eqb (f_invoice_id followup) invoice_id &&
                          String.eqb (f_status followup) "scheduled")
                       (map_to_list m))) ↔
  ∃ f, m !! k = Some f ∧ f_invoice_id f = invoice_id ∧ f_status f = "scheduled".
Proof.
  rewrite List.in_map_iff. split.
  - intros ([k' f] & Hk & Hin). simpl in Hk. subst k'.
    apply List.filter_In in Hin as [Hin Hp].
    apply list_elem_of_In, elem_of_map_to_list in Hin.
    apply andb_prop in Hp as [Hi Hs].
    apply String.eqb_eq in Hi. apply String.eqb_eq in Hs. eauto.
  - intros (f & Hf & Hi & Hs). exists (k, f). split; [reflexivity|].
    apply List.filter_In. split.
    + now apply list_elem_of_In, elem_of_map_to_list.
    + apply andb_true_intro. split; now apply String.eqb_eq.
Qed.

Lemma cancel_followups_run invoice_id st :
  ∃ st',
    _cancel_followups_for_invoice invoice_id st = (st', inr tt) ∧
    payment_processor st' = payment_processor st ∧
    outbox st' = outbox st ∧
    ∀ k,
      (∀ f, active_followups st !! k = Some f →
            f_invoice_id f = invoice_id → f_status f = "scheduled" →
            ∃ ts, active_followups st' !! k =
                    Some (set_cancelled_at ts (set_status "cancelled" f))) ∧
      ((∀ f, active_followups st !! k = Some f →
             ¬ (f_invoice_id f = invoice_id ∧ f_status f = "scheduled")) →
       active_followups st' !! k = active_followups st !! k).
Proof.
  unfold _cancel_followups_for_invoice, bind at 1, gets.
  match goal with
  | |- ∃ st', for_each ?ks _ _ = _ ∧ _ =>
      destruct (cancel_loop_run ks st) as (st' & Hrun & Hpp & Hout & Hpost)
  end.
  { intros k Hk. apply to_cancel_spec in Hk as (f & Hf & _). eauto. }
  exists st'. split; [exact Hrun|]. split; [exact Hpp|]. split; [exact Hout|].
  intros k. destruct (Hpost k) as [Hin Hnot]. split.
  - intros f Hf Hi Hs.
    destruct Hin as (f' & ts & Hf' & Hres).
    { apply to_cancel_spec. eauto. }
    rewrite Hf in Hf'. injection Hf' as <-. eauto.
  - intros Hno. apply Hnot. intros Hk.
    apply to_cancel_spec in Hk as (f & Hf & Hi & Hs). exact (Hno f Hf (conj Hi Hs)).
Qed.

Lemma py_eq_str_true v s : py_eq_str v s = true ↔ v = VStr s.
Proof.
  destruct v; simpl; try (split; [discriminate|discriminate]).
  rewrite String.eqb_eq. split; [now intros ->|now intros [= ->]].
Qed.

(** C5. [process_payment] hands the processor's answer back to its caller.
    When that answer is a success, every record of the invoice that was
    scheduled is afterwards cancelled and carries a cancellation stamp, its
    other fields as before, and executed records are as they were.  When
    the payment fails, by a non-success status or by an exception, the
    follow-up table is exactly as before. *)
Theorem payment_cancels_scheduled invoice_id payment_data st st' out :
  process_payment invoice_id payment_data st = (st', out) →
  out = snd (payment_processor st payment_data (clock st)) ∧
  (∀ payment_result,
     out = inr payment_result →
     py_get payment_result "status" = VStr "success" →
     ∀ k f, active_followups st !! k = Some f →
       (f_invoice_id f = invoice_id → f_status f = "scheduled" →
        ∃ f' ts, active_followups st' !! k = Some f' ∧
                 f_status f' = "cancelled" ∧ f_cancelled_at f' = Some ts ∧
                 f' = set_cancelled_at ts (set_status "cancelled" f)) ∧
       (f_status f = "executed" → active_followups st' !! k = Some f)) ∧
  ((∀ payment_result,
      out = inr payment_result →
      py_get payment_result "status" ≠ VStr "success") →
   active_followups st' = active_followups st).
Proof.
  unfold process_payment, bind, call_payment_processor.
  destruct (payment_processor st payment_data (clock st)) as [t [e|res]] eqn:Hpp.
  - intros [= <- <-]. split; [reflexivity|]. split; [discriminate|reflexivity].
  - destruct (py_eq_str (py_get res "status") "success") eqn:Hs.
    + apply py_eq_str_true in Hs.
      destruct (cancel_followups_run invoice_id (with_clock t st))
        as (st1 & Hrun & _ & _ & Hpost).
      rewrite Hrun. simpl. intros [= <- <-].
      split; [reflexivity|]. split.
      * intros ? [= <-] _ k f Hf. destruct (Hpost k) as [Hin Hnot]. split.
        -- intros Hi Hsch. destruct (Hin f Hf Hi Hsch) as (ts & Hres).
           exists (set_cancelled_at ts (set_status "cancelled" f)), ts.
           now destruct f.
        -- intros Hex. rewrite Hnot; [exact Hf|].
           intros f' Hf' [_ Hsch]. simpl in Hf, Hf'.
           rewrite Hf in Hf'. injection Hf' as <-. congruence.
      * intros Hfail. exfalso. exact (Hfail res eq_refl Hs).
    + simpl. intros [= <- <-]. split; [reflexivity|]. split; [|reflexivity].
      intros ? [= <-] Hsucc. apply py_eq_str_true in Hsucc. congruence.
Qed.

Lemma payment_cancels_scheduled_witness :
  ∃ st' out f f' ts,
    process_payment "INV-1" ∅ (fst (store_followup "INV-1" 35 "firm" init)) = (st', out) ∧
    active_followups (fst (store_followup "INV-1" 35 "firm" init)) !! "BF-INV-1-firm"
      = Some f ∧
    f_status f = "scheduled" ∧
    active_followups st' !! "BF-INV-1-firm" = Some f' ∧
    f_status f' = "cancelled" ∧ f_cancelled_at f' = Some ts.
Proof.
  destruct (process_payment "INV-1" ∅ (fst (store_followup "INV-1" 35 "firm" init)))
    as [st' out] eqn:Hrun.
  destruct (payment_cancels_scheduled _ _ _ _ _ Hrun) as (Hout & Hok & _).
  vm_compute in Hout.
  destruct (active_followups (fst (store_followup "INV-1" 35 "firm" init))
              !! "BF-INV-1-firm") as [f|] eqn:Hf;
    [|vm_compute in Hf; discriminate Hf].
  assert (Hid : f_invoice_id f = "INV-1" ∧ f_status f = "scheduled").
  { vm_compute in Hf. injection Hf as <-. split; reflexivity. }
  destruct (Hok _ Hout ltac:(vm_compute; reflexivity) "BF-INV-1-firm" f Hf)
    as [Hcancel _].
  destruct (Hcancel (proj1 Hid) (proj2 Hid)) as (f' & ts & Hf' & Hs & Hc & _).
  exists st', out, f, f', ts. repeat split; [apply Hid | exact Hf' | exact Hs | exact Hc].
Defined.

(** ** Scheduling again *)

(** Running a computation step by step on a symbolic state. *)
Ltac run :=
  repeat first
    [ progress unfold bind, ret, gets, modify, lift_result, datetime_now, emit,
        followup_at, update_followup
    | progress cbn [active_followups with_followups with_clock push_event clock
                    outbox payment_processor fst snd negb fmap option_fmap
                    option_map]
    | progress cbv beta iota zeta
    | rewrite lookup_alter_eq
    | match goal with
      | H : active_followups _ !! _ = Some _ |- _ => rewrite H
      | H : py_truthy _ = _ |- _ => rewrite H
      | H : py_float _ = _ |- _ => rewrite H
      | H : Qltb _ _ = _ |- _ => rewrite H
      end ].

Lemma applicable_some days_overdue cat :
  7 <= days_overdue →
  ∃ rule, _get_applicable_rule days_overdue cat = Some rule ∧
          In rule _setup_billing_rules.
Proof.
  intros Hd. unfold _get_applicable_rule, get_applicable_rule_in.
  destruct (List.find _ _) as [r|] eqn:Hfind.
  - apply List.find_some in Hfind as [Hin _]. eauto.
  - destruct (List.filter _ _) as [|a l] eqn:Hf.
    + exfalso. simpl in Hf.
      destruct (Z.leb_spec 7 days_overdue); [discriminate|lia].
    + eexists. split; [reflexivity|].
      destruct (py_max_by_spec days_after_due l a) as [Hm _].
      rewrite <- Hf in Hm. now apply List.filter_In in Hm as [Hm _].
Qed.

Lemma applicable_none days_overdue cat :
  days_overdue < 7 → _get_applicable_rule days_overdue cat = None.
Proof.
  intros Hd. apply no_match. simpl. intros r Hr.
  intuition (subst; simpl; lia).
Qed.

(** What the senders read from the invoice snapshot of the mock lookup. *)
Lemma snapshot_facts invoice_id :
  ∃ d, (∀ st, _get_invoice_data invoice_id st = (st, inr d)) ∧
       py_truthy (py_get d "email") = true ∧
       ∃ q, py_float (py_get_default d "amount" (VInt 0)) = inr q ∧
            Qltb 500 q = false ∧ Qltb 100 q = true.
Proof.
  eexists. split; [intros st; reflexivity|].
  split; [vm_compute; reflexivity|].
  eexists. split; [vm_compute; reflexivity|]. split; reflexivity.
Qed.

(** The action of a stored record whose rule is one of the table: it does
    not raise, delivers something, and leaves the record executed.  The
    resulting record depends on the stored one and on the clock only. *)
Lemma execute_run k f t :
  In (f_rule f) _setup_billing_rules →
  py_truthy (py_get (f_invoice_data f) "email") = true →
  (∃ q, py_float (py_get_default (f_invoice_data f) "amount" (VInt 0)) = inr q ∧
        Qltb 500 q = false ∧ Qltb 100 q = true) →
  ∃ f' evs t',
    f_invoice_id f' = f_invoice_id f ∧ f_days_overdue f' = f_days_overdue f ∧
    f_follow_up_type f' = f_follow_up_type f ∧ f_rule f' = f_rule f ∧
    f_created_at f' = f_created_at f ∧ f_cancelled_at f' = f_cancelled_at f ∧
    f_status f' = "executed" ∧ is_Some (f_executed_at f') ∧ evs ≠ [] ∧
    ∀ s, clock s = t → active_followups s !! k = Some f →
      _execute_followup_action k s =
        ({| active_followups := <[k := f']> (active_followups s);
            payment_processor := payment_processor s;
            clock := t'; outbox := outbox s ++ evs |}, inr tt).
Proof.
  intros Hin He (q & Hq & H500 & H100).
  destruct Hin as [Hr|[Hr|[Hr|[Hr|[]]]]].
  1,2: exists (set_executed_at (isoformat t) (set_status "executed" f)),
         [EmailSent (py_get (f_invoice_data f) "email")], (S t).
  3: exists (set_executed_at (isoformat t) (set_status "executed" f)),
       [EmailSent (py_get (f_invoice_data f) "email");
        CertifiedMailSent (py_get_default (f_invoice_data f) "address"
                             (VStr "No address on file"))],
       (S t).
  4: exists (set_executed_at (isoformat (S t)) (set_status "executed"
               (set_sent_to_collections true
                  (set_collections_id ("COL-" +:+ strftime t) f)))),
       [CollectionsCaseCreated ("COL-" +:+ strftime t);
        EmailSent (py_get (f_invoice_data f) "email")], (S (S t)).
  all: repeat (split; [first [reflexivity | eexists; reflexivity | discriminate]|]).
  all: intros s <- Hf.
  all: unfold _execute_followup_action, _send_billing_reminder, _send_final_notice,
         _send_to_collections, _create_collections_case, _send_email_reminder,
         _send_certified_mail.
  all: run; rewrite <- Hr; simpl; run.
  all: rewrite ?(alter_as_insert _ k _ _ Hf).
  all: repeat (rewrite alter_insert_eq || rewrite insert_insert_eq).
  all: unfold with_followups, with_clock, push_event; simpl.
  all: rewrite <- ?app_assoc; reflexivity.
Qed.

Lemma schedule_without_rule invoice_id days_overdue cat st :
  days_overdue < 7 →
  schedule_followup invoice_id days_overdue cat st = (st, inr tt).
Proof.
  intros Hd. unfold schedule_followup, store_followup.
  rewrite (applicable_none _ cat Hd). reflexivity.
Qed.

(** A call for which a rule applies: it does not raise, and the entry under
    the key of the pair becomes a record built from the arguments of this
    call and the clock alone, already executed. *)
Lemma schedule_run invoice_id days_overdue cat t :
  7 <= days_overdue →
  ∃ rule fresh evs t',
    _get_applicable_rule days_overdue cat = Some rule ∧
    f_invoice_id fresh = invoice_id ∧ f_days_overdue fresh = days_overdue ∧
    f_follow_up_type fresh = cat ∧ f_rule fresh = rule ∧
    f_created_at fresh = isoformat t ∧ f_cancelled_at fresh = None ∧
    f_status fresh = "executed" ∧ is_Some (f_executed_at fresh) ∧ evs ≠ [] ∧
    ∀ st, clock st = t →
      schedule_followup invoice_id days_overdue cat st =
        ({| active_followups :=
              <[followup_key invoice_id cat := fresh]> (active_followups st);
            payment_processor := payment_processor st;
            clock := t'; outbox := outbox st ++ evs |}, inr tt).
Proof.
  intros Hd.
  destruct (applicable_some days_overdue cat Hd) as (rule & Hrule & Hin).
  destruct (snapshot_facts invoice_id) as (d & Hd_run & Hemail & Hamount).
  set (base := {| f_invoice_id := invoice_id; f_days_overdue := days_overdue;
                  f_follow_up_type := cat; f_rule := rule;
                  f_invoice_data := d; f_status := "scheduled";
                  f_created_at := isoformat t; f_executed_at := None;
                  f_cancelled_at := None; f_collections_id := None;
                  f_sent_to_collections := None |}).
  destruct (execute_run (followup_key invoice_id cat) base (S t) Hin Hemail Hamount)
    as (f' & evs & t' & Hi & Hdays & Hc & Hr & Hcr & Hcan & Hs & Hex & Hevs & Hrun).
  exists rule, f', evs, t'.
  repeat (split; [first [assumption | congruence]|]).
  intros st <-.
  unfold schedule_followup, store_followup. rewrite Hrule.
  unfold bind at 1. unfold bind at 1. rewrite Hd_run.
  unfold bind at 1, datetime_now at 1, bind at 1, modify at 1, ret at 1.
  rewrite Hrun.
  - simpl. now rewrite insert_insert_eq.
  - reflexivity.
  - simpl. apply lookup_insert_eq.
Qed.

(** C9 as stated fails for a second call to which no rule applies: the
    guard [if not rule: return] leaves before anything is stored, so the
    earlier record (35 days overdue) stays and nothing is executed again. *)
Lemma reschedule_counterexample :
  schedule_followup "INV-1" 3 "firm" (fst (schedule_followup "INV-1" 35 "firm" init))
    = (fst (schedule_followup "INV-1" 35 "firm" init), inr tt) ∧
  f_days_overdue <$>
    active_followups
      (fst (schedule_followup "INV-1" 3 "firm"
              (fst (schedule_followup "INV-1" 35 "firm" init)))) !! "BF-INV-1-firm"
    = Some 35.
Proof.
  split.
  - apply schedule_without_rule. lia.
  - rewrite schedule_without_rule by lia. vm_compute. reflexivity.
Qed.

(** C9, amended.  A call of [schedule_followup] with at least 7 days
    overdue, so that a rule applies, raises nothing and replaces whatever
    was stored under the key of the pair (an executed or a cancelled record
    included) by a record that depends on this call's arguments and the
    clock only, and that is executed again: something is delivered and the
    record ends executed, with a new creation stamp and no cancellation
    stamp.  A call with fewer than 7 days overdue changes nothing.  In
    every state the table goes through, records of the same invoice and
    category sit under the same key, so there is never more than one. *)
Theorem reschedule_replaces invoice_id days_overdue cat (t : nat) :
  (7 <= days_overdue →
   ∃ rule fresh evs t',
     _get_applicable_rule days_overdue cat = Some rule ∧
     f_invoice_id fresh = invoice_id ∧ f_days_overdue fresh = days_overdue ∧
     f_follow_up_type fresh = cat ∧ f_rule fresh = rule ∧
     f_created_at fresh = isoformat t ∧ f_cancelled_at fresh = None ∧
     f_status fresh = "executed" ∧ is_Some (f_executed_at fresh) ∧ evs ≠ [] ∧
     ∀ st, clock st = t →
       schedule_followup invoice_id days_overdue cat st =
         ({| active_followups :=
               <[followup_key invoice_id cat := fresh]> (active_followups st);
             payment_processor := payment_processor st;
             clock := t'; outbox := outbox st ++ evs |}, inr tt)) ∧
  (days_overdue < 7 →
   ∀ st, schedule_followup invoice_id days_overdue cat st = (st, inr tt)) ∧
  (∀ st, reachable st →
     ∀ k1 k2 f1 f2,
       active_followups st !! k1 = Some f1 →
       active_followups st !! k2 = Some f2 →
       f_invoice_id f1 = f_invoice_id f2 →
       f_follow_up_type f1 = f_follow_up_type f2 →
       k1 = k2).
Proof.
  split; [apply schedule_run|]. split.
  - intros Hd st. now apply schedule_without_rule.
  - intros st Hreach k1 k2 f1 f2 H1 H2 Hi Hc.
    pose proof (reachable_keyed st Hreach) as Hk.
    rewrite (Hk k1 f1 H1), (Hk k2 f2 H2). now rewrite Hi, Hc.
Qed.

Lemma reschedule_replaces_witness :
  ∃ st' f,
    schedule_followup "INV-1" 95 "firm"
      (fst (process_payment "INV-1" ∅ (fst (store_followup "INV-1" 35 "firm" init))))
      = (st', inr tt) ∧
    active_followups st' !! "BF-INV-1-firm" = Some f ∧
    f_days_overdue f = 95 ∧ f_status f = "executed" ∧ f_cancelled_at f = None.
Proof.
  destruct (proj1 (reschedule_replaces "INV-1" 95 "firm" 4) ltac:(lia))
    as (rule & fresh & evs & t' & _ & _ & Hd & _ & _ & _ & Hc & Hs & _ & _ & Hrun).
  eexists. exists fresh. split; [apply Hrun; vm_compute; reflexivity|].
  split; [apply lookup_insert_eq|]. auto.
Defined.

End BillingProofs.

(** ** The insurance processor *)

Module InsuranceProofs.

Import Insurance.

Lemma update_claim_run claim_id upd st c :
  claim_tracker st !! claim_id = Some c →
  update_claim claim_id upd st =
    (with_tracker (<[claim_id := upd c]> (claim_tracker st)) st, inr tt).
Proof.
  intros Hc. unfold update_claim. rewrite Hc.
  now rewrite (alter_as_insert _ _ _ _ Hc).
Qed.

(** Running a computation step by step on a symbolic state. *)
Ltac irun :=
  repeat first
    [ progress unfold bind, ret, gets, modify, lift_result, datetime_now,
        random_random
    | progress cbn [claim_tracker with_tracker clock random_source random_used
                    fst snd]
    | progress cbv beta iota zeta
    | rewrite insert_insert_eq
    | erewrite update_claim_run by
        first [eassumption | apply lookup_insert_eq]
    | match goal with
      | H : claim_tracker _ !! _ = Some _ |- _ => rewrite H
      end
    | rewrite lookup_insert_eq ].

Lemma initiate_appeal_run claim_id st c :
  claim_tracker st !! claim_id = Some c →
  _initiate_appeal claim_id st =
    ({| claim_tracker :=
          <[claim_id := set_appeal_date (isoformat (clock st))
                          (set_appeal_status "submitted"
                             (set_appeal_id ("APP-" +:+ claim_id) c))]>
            (claim_tracker st);
        clock := S (clock st);
        random_source := random_source st;
        random_used := random_used st |}, inr tt).
Proof.
  intros Hc. unfold _initiate_appeal. irun. reflexivity.
Qed.

Lemma handle_adjudication_run claim_id st c :
  claim_tracker st !! claim_id = Some c →
  _handle_adjudication claim_id st =
    match py_float_lt
            (float_mul (random_draw (random_source st (random_used st))) 100)
            (py_get_default (c_ai_analysis c) "approval_likelihood" (VInt 75)) with
    | inl e =>
        ({| claim_tracker := claim_tracker st; clock := clock st;
            random_source := random_source st;
            random_used := S (random_used st) |}, inl e)
    | inr true =>
        ({| claim_tracker :=
              <[claim_id := set_approved_amount 450%Q
                              (set_adjudication_result "approved" c)]>
                (claim_tracker st);
            clock := clock st;
            random_source := random_source st;
            random_used := S (random_used st) |}, inr tt)
    | inr false =>
        ({| claim_tracker :=
              <[claim_id := set_appeal_date (isoformat (clock st))
                              (set_appeal_status "submitted"
                                 (set_appeal_id ("APP-" +:+ claim_id)
                                    (set_denial_reason
                                       "Medical necessity not established"
                                       (set_adjudication_result "denied" c))))]>
                (claim_tracker st);
            clock := S (clock st);
            random_source := random_source st;
            random_used := S (random_used st) |}, inr tt)
    end.
Proof.
  intros Hc. unfold _handle_adjudication. irun.
  destruct (py_float_lt _ _) as [e|[|]]; [reflexivity| |].
  - irun. reflexivity.
  - irun. erewrite initiate_appeal_run by apply lookup_insert_eq.
    irun. reflexivity.
Qed.

Lemma handle_payment_run claim_id st c :
  claim_tracker st !! claim_id = Some c →
  _handle_payment claim_id st =
    if bool_decide (c_adjudication_result c = Some "approved") then
      ({| claim_tracker :=
            <[claim_id := set_payment_date (isoformat (clock st))
                            (set_payment_amount
                               (default 0%Q (c_approved_amount c)) c)]>
              (claim_tracker st);
          clock := S (clock st);
          random_source := random_source st;
          random_used := random_used st |}, inr tt)
    else (st, inr tt).
Proof.
  intros Hc. unfold _handle_payment. irun. simpl.
  destruct (bool_decide _); [|reflexivity].
  irun. reflexivity.
Qed.

Lemma track_body_run claim_id status st c :
  claim_tracker st !! claim_id = Some c →
  track_body claim_id status st =
    (if String.eqb status "adjudicated" then _handle_adjudication claim_id
     else if String.eqb status "paid" then _handle_payment claim_id
     else ret tt)
      {| claim_tracker :=
           <[claim_id := set_last_updated (isoformat (clock st))
                           (set_status status c)]> (claim_tracker st);
         clock := S (clock st);
         random_source := random_source st;
         random_used := random_used st |}.
Proof.
  intros Hc. unfold track_body. irun. simpl. irun. reflexivity.
Qed.

Lemma after_clearinghouse_run claim_id rest st c :
  claim_tracker st !! claim_id = Some c →
  after_clearinghouse claim_id rest st =
    rest (with_tracker
            (<[claim_id := set_clearinghouse_id ("CH-" +:+ claim_id)
                             (set_status "in_progress" c)]> (claim_tracker st)) st).
Proof.
  intros Hc. unfold after_clearinghouse. irun. simpl. irun. reflexivity.
Qed.

(** *** Records *)

Ltac is_some_tac :=
  repeat match goal with
  | H : is_Some None |- _ => destruct (is_Some_None H)
  | H : None = Some _ |- _ => discriminate H
  | H : Some _ = None |- _ => discriminate H
  end.

Ltac elems :=
  repeat match goal with
  | H : _ ∈ _ :: _ |- _ => apply elem_of_cons in H as [H|H]
  | H : _ ∈ [] |- _ => apply elem_of_nil in H; destruct H
  end.

Ltac leaf :=
  solve
    [ discriminate | congruence | tauto | eauto
    | eexists; reflexivity
    | unfold statuses;
      repeat first [apply list_elem_of_here | apply list_elem_of_further]
    | exists 0%nat; split; reflexivity | exists 1%nat; split; reflexivity
    | exists 2%nat; split; reflexivity | exists 3%nat; split; reflexivity
    | left; leaf | right; leaf | split; leaf ].

(** Facts about a record given field by field. *)
Ltac record_tac :=
  repeat (unfold claim_ok, record_step, status_step, pristine,
            numeric_likelihood, phase_ok in *; simpl in * );
  repeat match goal with
  | H : _ ∧ _ |- _ => destruct H
  end;
  subst; simpl in *;
  repeat match goal with
  | |- _ ∧ _ => split
  | |- _ ↔ _ => split
  | |- _ → _ => intros ?
  | |- ∀ _, _ => intros ?
  | H : _ ∧ _ |- _ => destruct H
  end;
  elems; is_some_tac; subst; simpl in *; try leaf.

Lemma handoff_record x c :
  phase_ok AtClearinghouse c → claim_ok c →
  claim_ok (set_clearinghouse_id x (set_status "in_progress" c)) ∧
  record_step c (set_clearinghouse_id x (set_status "in_progress" c)) ∧
  phase_ok (Tracking 0) (set_clearinghouse_id x (set_status "in_progress" c)).
Proof. intros Hph Hok. destruct c. record_tac. Qed.

Lemma tracking_record n status t c :
  (n < 3)%nat → statuses !! n = Some status →
  phase_ok (Tracking n) c → claim_ok c →
  claim_ok (set_last_updated t (set_status status c)) ∧
  record_step c (set_last_updated t (set_status status c)) ∧
  phase_ok (Tracking (S n)) (set_last_updated t (set_status status c)).
Proof.
  intros Hn Hs Hph Hok.
  destruct n as [|[|[|n]]]; [| | |lia]; injection Hs as <-; destruct c; record_tac.
Qed.

Lemma adjudicated_crash_record t c :
  phase_ok (Tracking 3) c → claim_ok c → ¬ numeric_likelihood c →
  claim_ok (set_last_updated t (set_status "adjudicated" c)) ∧
  record_step c (set_last_updated t (set_status "adjudicated" c)).
Proof. intros Hph Hok Hnum. destruct c. record_tac. Qed.

Lemma approved_record t c :
  phase_ok (Tracking 3) c → claim_ok c →
  let c' := set_approved_amount 450%Q (set_adjudication_result "approved"
              (set_last_updated t (set_status "adjudicated" c))) in
  claim_ok c' ∧ record_step c c' ∧ phase_ok (Tracking 4) c'.
Proof. intros Hph Hok. destruct c. record_tac. Qed.

Lemma denied_record t t' x c :
  phase_ok (Tracking 3) c → claim_ok c →
  let c' := set_appeal_date t' (set_appeal_status "submitted" (set_appeal_id x
              (set_denial_reason "Medical necessity not established"
                 (set_adjudication_result "denied"
                    (set_last_updated t (set_status "adjudicated" c)))))) in
  claim_ok c' ∧ record_step c c' ∧ phase_ok (Tracking 4) c'.
Proof. intros Hph Hok. destruct c. record_tac. Qed.

Lemma paid_record t t' c :
  phase_ok (Tracking 4) c → claim_ok c →
  let c1 := set_last_updated t (set_status "paid" c) in
  let c' := if bool_decide (c_adjudication_result c = Some "approved")
            then set_payment_date t'
                   (set_payment_amount (default 0%Q (c_approved_amount c)) c1)
            else c1 in
  claim_ok c' ∧ record_step c c'.
Proof.
  intros Hph Hok. simpl. case_bool_decide as Hres; destruct c; record_tac.
Qed.

(** *** Waking a task *)

Lemma float_lt_error x c e :
  py_float_lt x (py_get_default (c_ai_analysis c) "approval_likelihood" (VInt 75))
    = inl e →
  ¬ numeric_likelihood c.
Proof.
  unfold numeric_likelihood. destruct (py_get_default _ _ _); simpl; intros H;
    first [discriminate H | tauto].
Qed.

Lemma wake_owner st claim_id ph c :
  claim_tracker st !! claim_id = Some c → phase_ok ph c → claim_ok c →
  ∃ secs resume st' out c',
    task_of claim_id ph = Sleep secs resume ∧
    resume st = (st', out) ∧
    claim_tracker st' = <[claim_id := c']> (claim_tracker st) ∧
    claim_ok c' ∧ record_step c c' ∧
    (out_dead out ∨
     ∃ ph', phase_ok ph' c' ∧
            (out = inr (task_of claim_id ph', []) ∨
             out = inr (Finished, [task_of claim_id ph']))).
Proof.
  intros Hc Hph Hok.
  destruct ph as [|n].
  - (* the hand-off to the clearinghouse *)
    destruct (handoff_record ("CH-" +:+ claim_id) c Hph Hok) as (Hok' & Hstep & Hph').
    do 5 eexists. split; [reflexivity|].
    split; [rewrite (after_clearinghouse_run _ _ _ _ Hc); reflexivity|].
    split; [reflexivity|]. split; [exact Hok'|]. split; [exact Hstep|].
    right. exists (Tracking 0). split; [exact Hph'|]. right. reflexivity.
  - destruct (decide (n < 3)%nat) as [Hn|Hn].
    + (* submitted, received, processing *)
      assert (∃ status, statuses !! n = Some status ∧
                String.eqb status "adjudicated" = false ∧
                String.eqb status "paid" = false ∧
                drop n statuses = status :: drop (S n) statuses)
        as (status & Hs & Hna & Hnp & Hdrop).
      { destruct n as [|[|[|n]]]; [| | |lia]; eexists; repeat split. }
      destruct (tracking_record n status (isoformat (clock st)) c Hn Hs Hph Hok)
        as (Hok' & Hstep & Hph').
      do 5 eexists. split; [simpl; rewrite Hdrop; reflexivity|].
      split.
      { unfold bind. rewrite (track_body_run _ _ _ _ Hc), Hna, Hnp. reflexivity. }
      split; [reflexivity|]. split; [exact Hok'|]. split; [exact Hstep|].
      right. exists (Tracking (S n)). split; [exact Hph'|]. left. reflexivity.
    + destruct n as [|[|[|[|[|n]]]]]; try lia; [| |destruct Hph].
      * (* adjudicated *)
        pose proof (handle_adjudication_run claim_id
          {| claim_tracker :=
               <[claim_id := set_last_updated (isoformat (clock st))
                               (set_status "adjudicated" c)]> (claim_tracker st);
             clock := S (clock st);
             random_source := random_source st;
             random_used := random_used st |}
          _ (lookup_insert_eq _ _ _)) as Hadj.
        cbn [claim_tracker clock random_source random_used] in Hadj.
        change (c_ai_analysis (set_last_updated _ (set_status "adjudicated" c)))
          with (c_ai_analysis c) in Hadj.
        destruct (py_float_lt _ _) as [e|[|]] eqn:Hlt.
        -- destruct (adjudicated_crash_record (isoformat (clock st)) c Hph Hok
                       (float_lt_error _ _ _ Hlt)) as (Hok' & Hstep).
           do 5 eexists. split; [reflexivity|].
           split.
           { unfold bind. rewrite (track_body_run _ _ _ _ Hc). cbn [String.eqb Ascii.eqb Bool.eqb].
             cbv iota. rewrite Hadj. reflexivity. }
           split; [reflexivity|]. split; [exact Hok'|]. split; [exact Hstep|].
           left. left. eauto.
        -- destruct (approved_record (isoformat (clock st)) c Hph Hok)
             as (Hok' & Hstep & Hph').
           do 5 eexists. split; [reflexivity|].
           split.
           { unfold bind. rewrite (track_body_run _ _ _ _ Hc). cbn [String.eqb Ascii.eqb Bool.eqb].
             cbv iota. rewrite Hadj. reflexivity. }
           split; [simpl; apply insert_insert_eq|].
           split; [exact Hok'|]. split; [exact Hstep|].
           right. exists (Tracking 4). split; [exact Hph'|]. left. reflexivity.
        -- destruct (denied_record (isoformat (clock st)) (isoformat (S (clock st)))
                       ("APP-" +:+ claim_id) c Hph Hok)
             as (Hok' & Hstep & Hph').
           do 5 eexists. split; [reflexivity|].
           split.
           { unfold bind. rewrite (track_body_run _ _ _ _ Hc). cbn [String.eqb Ascii.eqb Bool.eqb].
             cbv iota. rewrite Hadj. reflexivity. }
           split; [simpl; apply insert_insert_eq|].
           split; [exact Hok'|]. split; [exact Hstep|].
           right. exists (Tracking 4). split; [exact Hph'|]. left. reflexivity.
      * (* paid *)
        pose proof (handle_payment_run claim_id
          {| claim_tracker :=
               <[claim_id := set_last_updated (isoformat (clock st))
                               (set_status "paid" c)]> (claim_tracker st);
             clock := S (clock st);
             random_source := random_source st;
             random_used := random_used st |}
          _ (lookup_insert_eq _ _ _)) as Hpay.
        cbn [claim_tracker clock random_source random_used] in Hpay.
        change (c_adjudication_result (set_last_updated _ (set_status "paid" c)))
          with (c_adjudication_result c) in Hpay.
        change (c_approved_amount (set_last_updated _ (set_status "paid" c)))
          with (c_approved_amount c) in Hpay.
        destruct (paid_record (isoformat (clock st)) (isoformat (S (clock st))) c
                    Hph Hok) as (Hok' & Hstep).
        cbv zeta in Hok', Hstep.
        destruct (bool_decide (c_adjudication_result c = Some "approved")).
        all: do 5 eexists; (split; [reflexivity|]).
        all: split;
          [unfold bind; rewrite (track_body_run _ _ _ _ Hc);
           cbn [String.eqb Ascii.eqb Bool.eqb]; cbv iota; rewrite Hpay; reflexivity|].
        all: split; [simpl; rewrite ?insert_insert_eq; reflexivity|].
        all: split; [exact Hok'|]; split; [exact Hstep|].
        all: left; right; reflexivity.
Qed.

(** *** The event loop *)

(** Which entries the owner list has after task [i], owner of [claim_id],
    ran: the old ones away from [i], and at most one new one. *)
Lemma owners_update st st' pool owners i claim_id ph c' t1 ts o1 os :
  owners_ok st pool owners →
  owners !! i = Some (Some (claim_id, ph)) →
  claim_tracker st' = <[claim_id := c']> (claim_tracker st) →
  owned t1 o1 → Forall2 owned ts os →
  ((o1 = None ∧ os = []) ∨
   ∃ ph', phase_ok ph' c' ∧
          ((o1 = Some (claim_id, ph') ∧ os = []) ∨
           (o1 = None ∧ os = [Some (claim_id, ph')]))) →
  owners_ok st' (<[i := t1]> pool ++ ts) (<[i := o1]> owners ++ os).
Proof.
  intros (HF & Huniq & Hph) Hi Htr Ho1 Hos Hcase.
  pose proof (lookup_lt_Some _ _ _ Hi) as Hlen.
  assert (Hold : ∀ (a : nat) (x : string * phase),
            (<[i:=o1]> owners ++ os)%list !! a = Some (Some x) →
            (a ≠ i ∧ owners !! a = Some (Some x)) ∨
            (∃ ph', x = (claim_id, ph') ∧ phase_ok ph' c' ∧
               ∀ (b : nat) (y : phase),
                 (<[i:=o1]> owners ++ os)%list !! b = Some (Some (claim_id, y)) →
                      b ≠ i ∧ owners !! b = Some (Some (claim_id, y)) ∨ b = a)).
  { intros a x Ha.
    destruct Hcase as [[-> ->]|(ph' & Hph' & [[-> ->]|[-> ->]])].
    - rewrite app_nil_r in Ha. apply list_lookup_insert_Some in Ha.
      destruct Ha as [(_ & [=] & _)|[Hne Ha]]. left. auto.
    - rewrite app_nil_r in Ha. apply list_lookup_insert_Some in Ha.
      destruct Ha as [(<- & [= <-] & _)|[Hne Ha]]; [|left; auto].
      right. exists ph'. split; [reflexivity|]. split; [exact Hph'|].
      intros b y Hb. rewrite app_nil_r in Hb.
      apply list_lookup_insert_Some in Hb.
      destruct Hb as [(<- & _ & _)|[Hne Hb]]; auto.
    - apply lookup_app_Some in Ha. destruct Ha as [Ha|[Hge Ha]].
      + apply list_lookup_insert_Some in Ha.
        destruct Ha as [(_ & [=] & _)|[Hne Ha]]. left. auto.
      + rewrite length_insert in Hge, Ha.
        apply list_lookup_singleton_Some in Ha as [Ha [= <-]].
        right. exists ph'. split; [reflexivity|]. split; [exact Hph'|].
        intros b y Hb. apply lookup_app_Some in Hb. destruct Hb as [Hb|[Hge' Hb]].
        * apply list_lookup_insert_Some in Hb.
          destruct Hb as [(_ & [=] & _)|[Hne Hb]]. left. auto.
        * rewrite length_insert in Hge', Hb.
          apply list_lookup_singleton_Some in Hb as [Hb _]. right. lia. }
  split; [|split].
  - apply Forall2_app; [|exact Hos]. now apply Forall2_insert.
  - intros a b cid pa pb Ha Hb.
    destruct (Hold _ _ Ha) as [[Hna Ha']|(pa' & [= -> ->] & _ & Hnew)].
    + destruct (Hold _ _ Hb) as [[Hnb Hb']|(pb' & [= -> ->] & _ & Hnew)].
      * eauto.
      * exfalso. apply Hna. eauto.
    + destruct (Hnew _ _ Hb) as [[Hnb Hb']|Heq]; [|auto].
      exfalso. apply Hnb. eauto.
  - intros a cid pa Ha.
    destruct (Hold _ _ Ha) as [[Hna Ha']|(pa' & [= -> ->] & Hpa & _)].
    + destruct (Hph _ _ _ Ha') as (c & Hc & Hpc). exists c. split; [|exact Hpc].
      rewrite Htr, lookup_insert_ne; [exact Hc|].
      intros ->. apply Hna. eauto.
    + exists c'. split; [|exact Hpa]. rewrite Htr. apply lookup_insert_eq.
Qed.

Lemma submit_claim_run claim_data ai_analysis uuid8 st :
  ∃ c0,
    submit_claim claim_data ai_analysis uuid8 st =
      ({| claim_tracker :=
            <[new_claim_id (clock st) uuid8 := c0]> (claim_tracker st);
          clock := S (S (clock st));
          random_source := random_source st;
          random_used := random_used st |},
       inr (task_of (new_claim_id (clock st) uuid8) AtClearinghouse, [])) ∧
    claim_ok c0 ∧ phase_ok AtClearinghouse c0 ∧
    c_claim_data c0 = claim_data ∧ c_ai_analysis c0 = ai_analysis.
Proof.
  eexists. split.
  - unfold submit_claim, _submit_to_clearinghouse. irun. reflexivity.
  - record_tac.
Qed.

Lemma record_step_refl c : record_step c c.
Proof. now left. Qed.

Lemma step_ok w w' :
  world_ok w → step w w' →
  world_ok w' ∧
  (∀ claim_id c, claim_tracker (proc w) !! claim_id = Some c →
     ∃ c', claim_tracker (proc w') !! claim_id = Some c' ∧ record_step c c') ∧
  (∀ claim_id c', claim_tracker (proc w) !! claim_id = None →
     claim_tracker (proc w') !! claim_id = Some c' →
     phase_ok AtClearinghouse c').
Proof.
  intros [Hrec (owners & Hown)] Hstep.
  destruct Hstep as [w claim_data ai_analysis uuid8 Hfresh|w i].
  - (* a request *)
    destruct (submit_claim_run claim_data ai_analysis uuid8 (proc w))
      as (c0 & Hrun & Hok0 & Hph0 & _).
    unfold request. rewrite Hrun. cbn [proc pool].
    set (cid := new_claim_id (clock (proc w)) uuid8) in *.
    destruct Hown as (HF & Huniq & Hph).
    assert (Hother : ∀ a x p, owners !! a = Some (Some (x, p)) → x ≠ cid).
    { intros a x p Ha ->. destruct (Hph _ _ _ Ha) as (c & Hc & _). congruence. }
    split; [split|split].
    + intros k c. cbn [proc claim_tracker]. rewrite lookup_insert. case_decide.
      * now intros [= <-].
      * apply Hrec.
    + exists (owners ++ [Some (cid, AtClearinghouse)])%list. cbn [proc pool].
      split; [|split].
      * apply Forall2_app; [exact HF|]. repeat constructor.
      * intros a b x pa pb Ha Hb.
        apply lookup_app_Some in Ha. apply lookup_app_Some in Hb.
        destruct Ha as [Ha|[Hga Ha]], Hb as [Hb|[Hgb Hb]].
        -- eauto.
        -- apply list_lookup_singleton_Some in Hb as [_ [= -> _]].
           destruct (Hother _ _ _ Ha eq_refl).
        -- apply list_lookup_singleton_Some in Ha as [_ [= -> _]].
           destruct (Hother _ _ _ Hb eq_refl).
        -- apply list_lookup_singleton_Some in Ha as [Ha _].
           apply list_lookup_singleton_Some in Hb as [Hb _]. lia.
      * intros a x p Ha. apply lookup_app_Some in Ha.
        destruct Ha as [Ha|[Hga Ha]].
        -- destruct (Hph _ _ _ Ha) as (c & Hc & Hpc). exists c.
           split; [|exact Hpc]. cbn [claim_tracker].
           rewrite lookup_insert_ne; [exact Hc|].
           intros Heq. exact (Hother _ _ _ Ha (eq_sym Heq)).
        -- apply list_lookup_singleton_Some in Ha as [_ [= <- <-]].
           exists c0. split; [apply lookup_insert_eq|exact Hph0].
    + intros k c Hc. exists c. split; [|apply record_step_refl].
      cbn [proc claim_tracker]. rewrite lookup_insert_ne; [exact Hc|]. congruence.
    + intros k c'. cbn [proc claim_tracker]. rewrite lookup_insert.
      case_decide; [now intros _ [= <-]|congruence].
  - (* a task wakes *)
    unfold wake.
    destruct (pool w !! i) as [[|secs resume]|] eqn:Hi;
      try (split; [split; eauto|]; split;
           [intros k c Hc; exists c; split; [exact Hc|apply record_step_refl]
           |congruence]).
    pose proof Hown as (HF & Huniq & Hph).
    destruct (Forall2_lookup_l _ _ _ _ _ HF Hi) as ([[cid ph]|] & Ho & Howned);
      [|discriminate Howned].
    destruct (Hph _ _ _ Ho) as (c & Hc & Hpc).
    destruct (wake_owner (proc w) cid ph c Hc Hpc (Hrec _ _ Hc))
      as (secs' & resume' & st' & out & c' & Htask & Hrun & Htr & Hok' & Hstep & Hout).
    unfold owned in Howned. rewrite Htask in Howned. injection Howned as -> ->.
    rewrite Hrun.
    assert (Hrecs : ∀ k ck, claim_tracker st' !! k = Some ck → claim_ok ck).
    { intros k ck. rewrite Htr, lookup_insert. case_decide.
      - now intros [= <-].
      - apply Hrec. }
    assert (Hsteps : ∀ k ck, claim_tracker (proc w) !! k = Some ck →
              ∃ ck', claim_tracker st' !! k = Some ck' ∧ record_step ck ck').
    { intros k ck Hk. rewrite Htr. destruct (decide (cid = k)) as [<-|Hne].
      - rewrite lookup_insert_eq. exists c'. split; [reflexivity|]. congruence.
      - rewrite lookup_insert_ne by exact Hne. exists ck.
        split; [exact Hk|apply record_step_refl]. }
    assert (Hnew : ∀ k ck, claim_tracker (proc w) !! k = None →
              claim_tracker st' !! k = Some ck → phase_ok AtClearinghouse ck).
    { intros k ck Hk. rewrite Htr, lookup_insert_ne; congruence. }
    assert (Hgen : ∀ t1 ts o1 os,
              owned t1 o1 → Forall2 owned ts os →
              ((o1 = None ∧ os = []) ∨
               ∃ ph', phase_ok ph' c' ∧
                      ((o1 = Some (cid, ph') ∧ os = []) ∨
                       (o1 = None ∧ os = [Some (cid, ph')]))) →
              world_ok {| proc := st'; pool := (<[i := t1]> (pool w) ++ ts)%list |}).
    { intros t1 ts o1 os H1 H2 H3. split; [exact Hrecs|].
      exists (<[i := o1]> owners ++ os)%list. cbn [proc pool].
      eapply owners_update; eauto. }
    destruct Hout as [[[e ->]| ->]|(ph' & Hph' & [-> | ->])]; cbn [proc pool].
    + split; [|split; [exact Hsteps|exact Hnew]].
      rewrite <- (app_nil_r (<[i:=Finished]> (pool w))).
      apply (Hgen Finished [] None []); [reflexivity|constructor|auto].
    + split; [|split; [exact Hsteps|exact Hnew]].
      apply (Hgen Finished [] None []); [reflexivity|constructor|auto].
    + split; [|split; [exact Hsteps|exact Hnew]].
      apply (Hgen _ [] (Some (cid, ph')) []); [reflexivity|constructor|].
      right. exists ph'. split; [exact Hph'|]. left. split; reflexivity.
    + split; [|split; [exact Hsteps|exact Hnew]].
      apply (Hgen Finished [_] None [Some (cid, ph')]);
        [reflexivity|repeat constructor|].
      right. exists ph'. split; [exact Hph'|]. right. split; reflexivity.
Qed.

Lemma init_ok rs : world_ok (init rs).
Proof.
  split.
  - intros k c. simpl. rewrite lookup_empty. discriminate.
  - exists []. repeat split.
    + constructor.
    + intros i j k ph ph' Hi. rewrite lookup_nil in Hi. discriminate.
    + intros i k ph Hi. rewrite lookup_nil in Hi. discriminate.
Qed.

Lemma steps_ok w w' : world_ok w → rtc step w w' → world_ok w'.
Proof.
  intros Hok Hsteps. induction Hsteps as [|w w1 w2 Hstep _ IH]; [exact Hok|].
  apply IH. now apply (step_ok w w1).
Qed.

Lemma reachable_ok w : reachable w → world_ok w.
Proof. intros [rs Hsteps]. exact (steps_ok _ _ (init_ok rs) Hsteps). Qed.

Lemma reachable_step w w' : reachable w → step w w' → reachable w'.
Proof. intros [rs Hsteps] Hstep. exists rs. eapply rtc_r; eassumption. Qed.

(** Once set, the adjudication result stays, however many steps follow. *)
Lemma steps_keep_result w w' claim_id c v :
  world_ok w → rtc step w w' →
  claim_tracker (proc w) !! claim_id = Some c →
  c_adjudication_result c = Some v →
  ∃ c', claim_tracker (proc w') !! claim_id = Some c' ∧
        c_adjudication_result c' = Some v.
Proof.
  intros Hok Hsteps. revert c.
  induction Hsteps as [|w w1 w2 Hstep _ IH]; intros c Hc Hv; [eauto|].
  destruct (step_ok w w1 Hok Hstep) as (Hok1 & Hrec & _).
  destruct (Hrec _ _ Hc) as (c1 & Hc1 & [->|(_ & _ & _ & Hkeep & _)]).
  - now apply (IH Hok1 c).
  - apply (IH Hok1 c1 Hc1). now apply Hkeep.
Qed.

(** *** Adjudication *)

(** The outcome of [_handle_adjudication] on a claim with a numeric risk
    score: no exception, and the result is decided by the comparison of
    the draw, scaled by 100 and rounded, with the score. *)
Lemma adjudication_outcome claim_id st c n :
  claim_tracker st !! claim_id = Some c → risk_score c = Some n →
  ∃ st' c',
    _handle_adjudication claim_id st = (st', inr tt) ∧
    claim_tracker st' !! claim_id = Some c' ∧
    (c_adjudication_result c' = Some "approved" ↔
       (float_mul (random_draw (random_source st (random_used st))) 100 < n)%Q) ∧
    (c_adjudication_result c' = Some "denied" ↔
       ¬ (float_mul (random_draw (random_source st (random_used st))) 100 < n)%Q).
Proof.
  intros Hc Hn. rewrite (handle_adjudication_run _ _ _ Hc).
  unfold risk_score in Hn.
  set (x := float_mul (random_draw (random_source st (random_used st))) 100).
  assert (Hlt : py_float_lt x
                  (py_get_default (c_ai_analysis c) "approval_likelihood" (VInt 75))
                = inr (Qltb x n)).
  { destruct (py_get_default _ _ _); simpl in *; congruence. }
  rewrite Hlt.
  destruct (Qltb x n) eqn:Hb.
  - apply Qltb_spec in Hb. do 2 eexists. split; [reflexivity|].
    split; [apply lookup_insert_eq|]. simpl. split; split; intros H;
      first [exact Hb | reflexivity | discriminate H | contradiction].
  - assert (Hnb : ¬ (x < n)%Q).
    { intros H. apply Qltb_spec in H. congruence. }
    do 2 eexists. split; [reflexivity|].
    split; [apply lookup_insert_eq|]. simpl. split; split; intros H;
      first [exact Hnb | reflexivity | discriminate H | contradiction].
Qed.

(** C4 as stated fails: line 92 multiplies the draw by 100 in floating
    point, and the rounded product can reach a score that the exact
    product stays below.  The draw 1080863910568919 / 2^53, a double that
    prints as 0.12, times 100 is 4 / 2^53 below 12 and is rounded to 12.0:
    a claim with a score of 12 is denied, though [r * 100 < 12]. *)
Lemma exact_threshold_counterexample :
  (0 <= 1080863910568919 # 9007199254740992 < 1)%Q ∧
  (random_draw (1080863910568919 # 9007199254740992)
   == 1080863910568919 # 9007199254740992)%Q ∧
  ((1080863910568919 # 9007199254740992) * 100 < 12)%Q ∧
  (float_mul (1080863910568919 # 9007199254740992) 100 == 12)%Q ∧
  risk_score <$>
    (claim_tracker
       (proc (lone_claim (λ _, 1080863910568919 # 9007199254740992)%Q
                {["approval_likelihood" := VInt 12]} 4))
       !! "CLM-0-0a1b2c3d") = Some (Some 12%Q) ∧
  c_adjudication_result <$>
    (claim_tracker
       (proc (lone_claim (λ _, 1080863910568919 # 9007199254740992)%Q
                {["approval_likelihood" := VInt 12]} 5))
       !! "CLM-0-0a1b2c3d") = Some (Some "denied").
Proof.
  split; [split; [discriminate|reflexivity]|].
  split; [reflexivity|]. split; [reflexivity|]. split; [reflexivity|].
  split; vm_compute; reflexivity.
Qed.

(** C4, amended.  At adjudication, for a claim with risk score [n] and a
    draw [r], a double of [0, 1) with 53 binary places, the outcome is
    approved exactly when the floating-point product of [r] and 100, the
    double nearest to [r * 100], is below [n], and denied otherwise.  The
    rounding moves the product by at most [2^-47], so the outcome is that
    of the exact comparison unless [r * 100] is that close to [n]; a score
    of 100 is always approved and a score of 0 always denied. *)
Theorem adjudication_threshold claim_id st c n :
  claim_tracker st !! claim_id = Some c → risk_score c = Some n →
  ∃ st' c',
    _handle_adjudication claim_id st = (st', inr tt) ∧
    claim_tracker st' !! claim_id = Some c' ∧
    (c_adjudication_result c' = Some "approved" ↔
       (float_mul (random_draw (random_source st (random_used st))) 100 < n)%Q) ∧
    (c_adjudication_result c' = Some "denied" ↔
       ¬ (float_mul (random_draw (random_source st (random_used st))) 100 < n)%Q) ∧
    ((0 <= random_source st (random_used st) < 1)%Q →
       ((random_draw (random_source st (random_used st)) * 100
         + (1 # 140737488355328) < n)%Q →
        c_adjudication_result c' = Some "approved") ∧
       ((n + (1 # 140737488355328)
         <= random_draw (random_source st (random_used st)) * 100)%Q →
        c_adjudication_result c' = Some "denied")) ∧
    ((0 <= random_source st (random_used st) < 1)%Q → (n == 100)%Q →
       c_adjudication_result c' = Some "approved") ∧
    ((0 <= random_source st (random_used st) < 1)%Q → (n == 0)%Q →
       c_adjudication_result c' = Some "denied").
Proof.
  intros Hc Hn.
  destruct (adjudication_outcome _ _ _ _ Hc Hn) as (st' & c' & Hrun & Hc' & Ha & Hd).
  exists st', c'. repeat (split; [assumption|]).
  unfold float_mul in Ha, Hd.
  set (q := (random_draw (random_source st (random_used st)) * 100)%Q) in *.
  split; [|split].
  - intros Hrange.
    pose proof (FloatProofs.random_draw_range _ Hrange) as [Hq0 Hq1]. fold q in Hq0, Hq1.
    pose proof (FloatProofs.round_double_error q ltac:(split; lra)) as [He1 He2].
    split; intros H; [apply Ha|apply Hd]; lra.
  - intros [H0 H1] H100. apply Ha. rewrite H100.
    now apply FloatProofs.draw_lt_100.
  - intros Hrange Hz. apply Hd. rewrite Hz.
    pose proof (FloatProofs.random_draw_range _ Hrange) as [Hq0 _]. fold q in Hq0.
    pose proof (FloatProofs.round_double_nonneg q Hq0). lra.
Qed.

Lemma adjudication_threshold_witness :
  ∃ st' c',
    _handle_adjudication "CLM-0-0a1b2c3d"
      (proc (lone_claim (λ _, 1 # 2)%Q {["approval_likelihood" := VInt 100]} 4))
      = (st', inr tt) ∧
    claim_tracker st' !! "CLM-0-0a1b2c3d" = Some c' ∧
    c_adjudication_result c' = Some "approved".
Proof.
  destruct (claim_tracker
              (proc (lone_claim (λ _, 1 # 2)%Q {["approval_likelihood" := VInt 100]} 4))
              !! "CLM-0-0a1b2c3d") as [c|] eqn:Hc;
    [|vm_compute in Hc; discriminate Hc].
  assert (Hn : risk_score c = Some 100%Q).
  { vm_compute in Hc. injection Hc as <-. reflexivity. }
  destruct (adjudication_threshold _ _ c 100%Q Hc Hn)
    as (st' & c' & Hrun & Hc' & _ & _ & _ & H100 & _).
  exists st', c'. split; [exact Hrun|]. split; [exact Hc'|].
  apply H100; [|reflexivity]. vm_compute. split; [discriminate|reflexivity].
Defined.

(** *** The scenario *)

Lemma lone_claim_reachable rs ai_analysis n : reachable (lone_claim rs ai_analysis n).
Proof.
  induction n as [|n IH]; simpl.
  - exists rs. apply rtc_once. apply step_request. apply lookup_empty.
  - eapply reachable_step; [exact IH|apply step_wake].
Qed.

(** *** The status of a claim *)

(** C3 as stated fails: when the clearinghouse submission returns,
    [_submit_to_clearinghouse] overwrites the status with [in_progress],
    which is none of the five, and the first write of the background
    progression then puts [submitted] back. *)
Lemma status_five_counterexample :
  reachable (lone_claim (λ _, 1 # 2)%Q ∅ 1) ∧
  c_status <$> (claim_tracker (proc (lone_claim (λ _, 1 # 2)%Q ∅ 1))
                  !! "CLM-0-0a1b2c3d") = Some "in_progress" ∧
  ("in_progress" ∉ statuses) ∧
  c_status <$> (claim_tracker (proc (lone_claim (λ _, 1 # 2)%Q ∅ 2))
                  !! "CLM-0-0a1b2c3d") = Some "submitted".
Proof.
  split; [apply lone_claim_reachable|].
  split; [vm_compute; reflexivity|].
  split; [|vm_compute; reflexivity].
  unfold statuses. rewrite !not_elem_of_cons. repeat split; try discriminate.
  apply not_elem_of_nil.
Qed.

(** C3, amended.  A record is created with status [submitted]; the status
    becomes [in_progress] when the clearinghouse submission returns; the
    background progression then writes [submitted], [received],
    [processing], [adjudicated], [paid], one position at a time.  So the
    status is always [in_progress] or one of the five, it is [submitted] or
    [in_progress] before the first write of the progression, and from that
    write on it is one of the five and every change moves it exactly one
    position forward. *)
Theorem status_progression w :
  reachable w →
  (∀ claim_id c, claim_tracker (proc w) !! claim_id = Some c →
     (c_status c = "in_progress" ∨ c_status c ∈ statuses) ∧
     (c_last_updated c = None →
        c_status c = "submitted" ∨ c_status c = "in_progress") ∧
     (is_Some (c_last_updated c) → c_status c ∈ statuses)) ∧
  (∀ w' claim_id c, step w w' →
     claim_tracker (proc w) !! claim_id = Some c →
     ∃ c', claim_tracker (proc w') !! claim_id = Some c' ∧
           (c_status c' = c_status c ∨ status_step c c')) ∧
  (∀ w' claim_id c', step w w' →
     claim_tracker (proc w) !! claim_id = None →
     claim_tracker (proc w') !! claim_id = Some c' →
     c_status c' = "submitted" ∧ c_last_updated c' = None).
Proof.
  intros Hreach. pose proof (reachable_ok w Hreach) as Hok.
  split; [|split].
  - intros k c Hc. destruct Hok as [Hrec _].
    destruct (Hrec k c Hc) as (H1 & H2 & H3 & _). auto.
  - intros w' k c Hstep Hc.
    destruct (step_ok w w' Hok Hstep) as (_ & Hrec & _).
    destruct (Hrec k c Hc) as (c' & Hc' & [->|[Hs _]]); eauto.
  - intros w' k c' Hstep Hnone Hc'.
    destruct (step_ok w w' Hok Hstep) as (_ & _ & Hnew).
    destruct (Hnew k c' Hnone Hc') as (Hs & Hl & _). auto.
Qed.

Lemma status_progression_witness :
  ∃ c c',
    claim_tracker (proc (lone_claim (λ _, 1 # 2)%Q ∅ 3)) !! "CLM-0-0a1b2c3d" = Some c ∧
    claim_tracker (proc (lone_claim (λ _, 1 # 2)%Q ∅ 4)) !! "CLM-0-0a1b2c3d" = Some c' ∧
    c_status c = "received" ∧
    (c_status c' = c_status c ∨ status_step c c').
Proof.
  destruct (claim_tracker (proc (lone_claim (λ _, 1 # 2)%Q ∅ 3)) !! "CLM-0-0a1b2c3d")
    as [c|] eqn:Hc; [|vm_compute in Hc; discriminate Hc].
  destruct (proj1 (proj2 (status_progression _
              (lone_claim_reachable (λ _, 1 # 2)%Q ∅ 3)))
              (lone_claim (λ _, 1 # 2)%Q ∅ 4) "CLM-0-0a1b2c3d" c
              (step_wake _ 1) Hc) as (c' & Hc' & Hstep).
  exists c, c'. split; [reflexivity|]. split; [exact Hc'|]. split; [|exact Hstep].
  vm_compute in Hc. injection Hc as <-. reflexivity.
Defined.

(** *** The adjudication result *)

(** The iteration of the background progression that writes
    [adjudicated], on a claim whose risk score is a number: it raises
    nothing and leaves the result set. *)
Lemma adjudicated_body_run st claim_id c :
  claim_tracker st !! claim_id = Some c → is_Some (risk_score c) →
  ∃ st' c', track_body claim_id "adjudicated" st = (st', inr tt) ∧
            claim_tracker st' !! claim_id = Some c' ∧
            c_status c' = "adjudicated" ∧
            (c_adjudication_result c' = Some "approved" ∨
             c_adjudication_result c' = Some "denied").
Proof.
  intros Hc [n Hn]. rewrite (track_body_run _ _ _ _ Hc).
  cbn [String.eqb Ascii.eqb Bool.eqb]. cbv iota.
  erewrite handle_adjudication_run by apply lookup_insert_eq.
  cbn [claim_tracker clock random_source random_used].
  change (c_ai_analysis (set_last_updated _ (set_status "adjudicated" c)))
    with (c_ai_analysis c).
  unfold risk_score in Hn.
  destruct (py_get_default (c_ai_analysis c) "approval_likelihood" (VInt 75));
    try discriminate Hn; simpl py_float_lt; cbv iota;
    destruct (Qltb _ _); do 2 eexists;
    (split; [reflexivity|]); (split; [apply lookup_insert_eq|]); simpl; auto.
Qed.

(** C6. The adjudication result of a claim is unset when the record is
    created and as long as the status is before [adjudicated]; the step
    that makes the status [adjudicated] sets it, for a claim whose risk
    score is a number, and the iteration of the progression that does so
    always completes with the result set; a value it holds is [approved]
    or [denied]; and once it holds a value, every later state holds the
    same value and [get_claim_status] returns it, without changing the
    state. *)
Theorem adjudication_result_once w :
  reachable w →
  (∀ w' claim_id c', step w w' →
     claim_tracker (proc w) !! claim_id = None →
     claim_tracker (proc w') !! claim_id = Some c' →
     c_adjudication_result c' = None) ∧
  (∀ claim_id c, claim_tracker (proc w) !! claim_id = Some c →
     c_status c ∈ ["submitted"; "in_progress"; "received"; "processing"] →
     c_adjudication_result c = None) ∧
  (∀ w' claim_id c c', step w w' →
     claim_tracker (proc w) !! claim_id = Some c →
     claim_tracker (proc w') !! claim_id = Some c' →
     c_status c ≠ "adjudicated" → c_status c' = "adjudicated" →
     is_Some (risk_score c) →
     is_Some (c_adjudication_result c')) ∧
  (∀ st claim_id c, claim_tracker st !! claim_id = Some c →
     is_Some (risk_score c) →
     ∃ st' c', track_body claim_id "adjudicated" st = (st', inr tt) ∧
               claim_tracker st' !! claim_id = Some c' ∧
               c_status c' = "adjudicated" ∧
               (c_adjudication_result c' = Some "approved" ∨
                c_adjudication_result c' = Some "denied")) ∧
  (∀ claim_id c v, claim_tracker (proc w) !! claim_id = Some c →
     c_adjudication_result c = Some v → v = "approved" ∨ v = "denied") ∧
  (∀ w' claim_id c v, rtc step w w' →
     claim_tracker (proc w) !! claim_id = Some c →
     c_adjudication_result c = Some v →
     ∃ r, get_claim_status claim_id (proc w') = (proc w', inr r) ∧
          r_adjudication_result r = Some v).
Proof.
  intros Hreach. pose proof (reachable_ok w Hreach) as Hok.
  split; [|split; [|split; [|split; [|split]]]].
  - intros w' k c' Hstep Hnone Hc'.
    destruct (step_ok w w' Hok Hstep) as (_ & _ & Hnew).
    destruct (Hnew k c' Hnone Hc') as (_ & _ & Hp & _). exact Hp.
  - intros k c Hc Hs. destruct Hok as [Hrec _].
    destruct (Hrec k c Hc) as (_ & _ & _ & H4 & _). auto.
  - intros w' k c c' Hstep Hc Hc' Hbefore Hafter Hnum.
    destruct (step_ok w w' Hok Hstep) as (_ & Hrec & _).
    destruct (Hrec k c Hc) as (c1 & Hc1 & Hrs).
    rewrite Hc' in Hc1. injection Hc1 as <-.
    destruct Hrs as [->|(_ & _ & _ & _ & Hset)]; [congruence|].
    apply Hset; [exact Hafter|].
    unfold numeric_likelihood. unfold risk_score in Hnum.
    destruct (py_get_default _ _ _); first [exact I | destruct (is_Some_None Hnum)].
  - intros st k c Hc Hnum. apply (adjudicated_body_run st k c Hc Hnum).
  - intros k c v Hc Hv. destruct Hok as [Hrec _].
    destruct (Hrec k c Hc) as (_ & _ & _ & _ & H5 & _). eauto.
  - intros w' k c v Hsteps Hc Hv.
    destruct (steps_keep_result w w' k c v Hok Hsteps Hc Hv) as (c' & Hc' & Hv').
    eexists. unfold get_claim_status. rewrite Hc'. split; [reflexivity|exact Hv'].
Qed.

Lemma adjudication_result_once_witness :
  ∃ r, get_claim_status "CLM-0-0a1b2c3d" (proc (lone_claim (λ _, 1 # 2)%Q ∅ 6))
         = (proc (lone_claim (λ _, 1 # 2)%Q ∅ 6), inr r) ∧
       r_adjudication_result r = Some "approved".
Proof.
  destruct (claim_tracker (proc (lone_claim (λ _, 1 # 2)%Q ∅ 5)) !! "CLM-0-0a1b2c3d")
    as [c|] eqn:Hc; [|vm_compute in Hc; discriminate Hc].
  apply (proj2 (proj2 (proj2 (proj2 (proj2 (adjudication_result_once _
           (lone_claim_reachable (λ _, 1 # 2)%Q ∅ 5))))))
           (lone_claim (λ _, 1 # 2)%Q ∅ 6) "CLM-0-0a1b2c3d" c "approved").
  - apply rtc_once. apply (step_wake _ 1).
  - exact Hc.
  - vm_compute in Hc. injection Hc as <-. reflexivity.
Defined.

(** *** Appeal and payment *)

(** C7. In every state, for every claim: the appeal id and the appeal
    status are set exactly when the adjudication result is [denied], and
    the payment amount and the payment date are set exactly when the result
    is [approved] and the status is [paid]. *)
Theorem appeal_and_payment_fields w claim_id c :
  reachable w →
  claim_tracker (proc w) !! claim_id = Some c →
  (is_Some (c_appeal_id c) ↔ c_adjudication_result c = Some "denied") ∧
  (is_Some (c_appeal_status c) ↔ c_adjudication_result c = Some "denied") ∧
  (is_Some (c_payment_amount c) ↔
     c_adjudication_result c = Some "approved" ∧ c_status c = "paid") ∧
  (is_Some (c_payment_date c) ↔
     c_adjudication_result c = Some "approved" ∧ c_status c = "paid").
Proof.
  intros Hreach Hc. destruct (reachable_ok w Hreach) as [Hrec _].
  destruct (Hrec claim_id c Hc) as (_ & _ & _ & _ & _ & H6 & H7 & H8 & H9).
  auto.
Qed.

Lemma appeal_and_payment_fields_witness :
  ∃ c d,
    claim_tracker (proc (lone_claim (λ _, 1 # 2)%Q ∅ 6)) !! "CLM-0-0a1b2c3d" = Some c ∧
    claim_tracker (proc (lone_claim (λ _, 4 # 5)%Q ∅ 6)) !! "CLM-0-0a1b2c3d" = Some d ∧
    c_payment_amount c = Some 450%Q ∧ c_appeal_id c = None ∧
    (is_Some (c_payment_amount c) ↔
       c_adjudication_result c = Some "approved" ∧ c_status c = "paid") ∧
    c_appeal_id d = Some "APP-CLM-0-0a1b2c3d" ∧ c_payment_amount d = None ∧
    (is_Some (c_appeal_id d) ↔ c_adjudication_result d = Some "denied").
Proof.
  destruct (claim_tracker (proc (lone_claim (λ _, 1 # 2)%Q ∅ 6)) !! "CLM-0-0a1b2c3d")
    as [c|] eqn:Hc; [|vm_compute in Hc; discriminate Hc].
  destruct (claim_tracker (proc (lone_claim (λ _, 4 # 5)%Q ∅ 6)) !! "CLM-0-0a1b2c3d")
    as [d|] eqn:Hd; [|vm_compute in Hd; discriminate Hd].
  destruct (appeal_and_payment_fields _ _ c
              (lone_claim_reachable (λ _, 1 # 2)%Q ∅ 6) Hc) as (_ & _ & Hpay & _).
  destruct (appeal_and_payment_fields _ _ d
              (lone_claim_reachable (λ _, 4 # 5)%Q ∅ 6) Hd) as (Happ & _).
  exists c, d. split; [reflexivity|]. split; [reflexivity|].
  repeat split; try assumption; try tauto.
  - vm_compute in Hc. injection Hc as <-. reflexivity.
  - vm_compute in Hc. injection Hc as <-. reflexivity.
  - vm_compute in Hd. injection Hd as <-. reflexivity.
  - vm_compute in Hd. injection Hd as <-. reflexivity.
Defined.

End InsuranceProofs.

(** ** The likelihood extractor and the default of 75 *)

Module AgentProofs.

Import Insurance AIAgent.

Lemma span_digits_spec s :
  s = fst (span_digits s) +:+ snd (span_digits s) ∧
  all_digits (fst (span_digits s)) = true ∧
  match snd (span_digits s) with
  | EmptyString => True
  | String c _ => is_digit c = false
  end.
Proof.
  induction s as [|c s IH]; simpl; [auto|].
  destruct (is_digit c) eqn:Hc.
  - destruct (span_digits s) as [ds rest]. simpl in *.
    destruct IH as (Heq & Hall & Hrest).
    rewrite Hc, Hall. split; [|auto].
    change (String c s = String c (ds +:+ rest)). congruence.
  - simpl. rewrite Hc. auto.
Qed.

(** A match found by the search is an occurrence of the pattern. *)
Lemma search_sound s g :
  re_search_digits_percent s = Some g → percent_pattern_occurs s.
Proof.
  induction s as [|c s IH]; [discriminate|].
  intros Hs.
  assert (Hrec : re_search_digits_percent s = Some g → percent_pattern_occurs (String c s)).
  { intros H. destruct (IH H) as (pre & ds & post & -> & Hne & Hall).
    exists (String c pre), ds, post. auto. }
  cbn [re_search_digits_percent] in Hs.
  destruct (span_digits_spec (String c s)) as (Heq & Hall & _).
  destruct (span_digits (String c s)) as [[|d ds] [|p rest]]; auto.
  destruct (Ascii.eqb_spec p "%") as [->|Hp]; auto.
  exists EmptyString, (String d ds), rest.
  split; [exact Heq|]. split; [discriminate|exact Hall].
Qed.

(** Where the pattern occurs, the search finds a match. *)
Lemma search_complete s :
  percent_pattern_occurs s → is_Some (re_search_digits_percent s).
Proof.
  intros (pre & ds & post & -> & Hne & Hall).
  induction pre as [|c pre IH].
  - destruct ds as [|d ds]; [congruence|].
    change (is_Some (re_search_digits_percent (String d (ds +:+ "%" +:+ post)))).
    cbn [re_search_digits_percent].
    assert (Hspan : ∀ ds, all_digits ds = true →
              span_digits (ds +:+ "%" +:+ post) = (ds, "%" +:+ post)).
    { clear. induction ds as [|d ds IH]; simpl; [reflexivity|].
      intros H. apply andb_prop in H as [Hd Hall].
      rewrite Hd. change (span_digits (ds +:+ String "%" post))
        with (span_digits (ds +:+ "%" +:+ post)).
      now rewrite (IH Hall). }
    change (String d (ds +:+ "%" +:+ post)) with (String d ds +:+ "%" +:+ post).
    rewrite (Hspan _ Hall). simpl. eauto.
  - change (is_Some (re_search_digits_percent
                       (String c (pre +:+ ds +:+ "%" +:+ post)))).
    cbn [re_search_digits_percent].
    destruct (span_digits _) as [[|d' ds'] [|p rest]]; try exact IH.
    destruct (Ascii.eqb p "%"); [eauto|exact IH].
Qed.

Lemma search_none_iff s :
  re_search_digits_percent s = None ↔ ¬ percent_pattern_occurs s.
Proof.
  split.
  - intros Hnone Hocc. apply search_complete in Hocc as [g Hg]. congruence.
  - intros Hno. destruct (re_search_digits_percent s) as [g|] eqn:Hs; [|reflexivity].
    destruct Hno. eapply search_sound, Hs.
Qed.

(** C10. A claim whose [ai_analysis] has no [approval_likelihood] key is
    adjudicated with a likelihood of 75: the adjudication raises nothing
    and approves exactly when the draw, scaled by 100, is below 75, that is
    when the draw is below 3/4.  And the extractor of the AI layer returns
    75 for every text in which no digits followed by a percent sign
    occur. *)
Theorem default_likelihood :
  (∀ claim_id st c,
     claim_tracker st !! claim_id = Some c →
     c_ai_analysis c !! "approval_likelihood" = None →
     risk_score c = Some 75%Q ∧
     ∃ st' c',
       _handle_adjudication claim_id st = (st', inr tt) ∧
       claim_tracker st' !! claim_id = Some c' ∧
       (c_adjudication_result c' = Some "approved" ↔
          (random_source st (random_used st) < 3 # 4)%Q) ∧
       (c_adjudication_result c' = Some "denied" ↔
          ¬ (random_source st (random_used st) < 3 # 4)%Q)) ∧
  (∀ analysis,
     ¬ percent_pattern_occurs analysis →
     _extract_approval_likelihood analysis = inr 75).
Proof.
  split.
  - intros claim_id st c Hc Hmissing.
    assert (Hn : risk_score c = Some 75%Q).
    { unfold risk_score, py_get_default. now rewrite Hmissing. }
    split; [exact Hn|].
    destruct (InsuranceProofs.adjudication_outcome _ _ _ _ Hc Hn)
      as (st' & c' & Hrun & Hc' & Ha & Hd).
    exists st', c'. split; [exact Hrun|]. split; [exact Hc'|].
    unfold float_mul in Ha, Hd. rewrite FloatProofs.draw_lt_75 in Ha, Hd.
    split; assumption.
  - intros analysis Hno. unfold _extract_approval_likelihood.
    now rewrite (proj2 (search_none_iff analysis) Hno).
Qed.

Lemma default_likelihood_witness :
  (∃ st' c',
     _handle_adjudication "CLM-0-0a1b2c3d" (proc (lone_claim (λ _, 1 # 2)%Q ∅ 4))
       = (st', inr tt) ∧
     claim_tracker st' !! "CLM-0-0a1b2c3d" = Some c' ∧
     c_adjudication_result c' = Some "approved") ∧
  _extract_approval_likelihood "Approval is likely; 3 risks noted." = inr 75.
Proof.
  split.
  - destruct (claim_tracker (proc (lone_claim (λ _, 1 # 2)%Q ∅ 4)) !! "CLM-0-0a1b2c3d")
      as [c|] eqn:Hc; [|vm_compute in Hc; discriminate Hc].
    assert (Hmissing : c_ai_analysis c !! "approval_likelihood" = None).
    { vm_compute in Hc. injection Hc as <-. reflexivity. }
    destruct (proj1 default_likelihood _ _ c Hc Hmissing)
      as (_ & st' & c' & Hrun & Hc' & Ha & _).
    exists st', c'. split; [exact Hrun|]. split; [exact Hc'|].
    apply Ha. vm_compute. reflexivity.
  - apply (proj2 default_likelihood).
    apply search_none_iff. vm_compute. reflexivity.
Defined.

End AgentProofs.

(** ** More on the billing automation *)

Module BillingExtras.

Import Billing BillingProofs.

(** *** Between calls *)

Lemma payment_keeps_table invoice_id payment_data st :
  (∀ k f, active_followups st !! k = Some f → f_status f ≠ "scheduled") →
  active_followups (fst (process_payment invoice_id payment_data st))
    = active_followups st.
Proof.
  intros Hnone. unfold process_payment, bind, call_payment_processor.
  destruct (payment_processor st payment_data (clock st)) as [t [e|res]];
    [reflexivity|].
  destruct (py_eq_str _ _); [|reflexivity].
  destruct (cancel_followups_run invoice_id (with_clock t st))
    as (st1 & Hrun & _ & _ & Hpost).
  rewrite Hrun. simpl. apply map_eq. intros k.
  destruct (Hpost k) as [_ Hsame]. rewrite Hsame; [reflexivity|].
  intros f Hf [_ Hs]. exact (Hnone k f Hf Hs).
Qed.

Lemma between_calls_executed st : between_calls st → all_executed st.
Proof.
  induction 1 as [st Hempty|st o _ IH].
  - intros k f. rewrite Hempty, lookup_empty. discriminate.
  - destruct o as [i d c|i p]; simpl.
    + destruct (Z_lt_le_dec d 7) as [Hd|Hd].
      * now rewrite (schedule_without_rule i d c st Hd).
      * destruct (schedule_run i d c (clock st) Hd)
          as (rule & fresh & evs & t' & _ & _ & _ & _ & _ & _ & Hcan & Hs & Hex & _ & Hrun).
        rewrite (Hrun st eq_refl). unfold all_executed.
        cbn [fst active_followups]. intros k f.
        rewrite lookup_insert. case_decide.
        -- intros [= <-]. auto.
        -- apply IH.
    + unfold all_executed. intros k f. rewrite payment_keeps_table; [apply IH|].
      intros k' f' Hf' Hs. destruct (IH k' f' Hf') as [He _]. congruence.
Qed.

(** X1. Between two calls no record is ever scheduled or cancelled: every
    record is executed, with an execution stamp and no cancellation stamp.
    So a [process_payment] made between two calls finds nothing to cancel
    and leaves the follow-up table exactly as it was, whatever the
    processor answers. *)
Theorem cancellation_finds_nothing st :
  between_calls st →
  (∀ k f, active_followups st !! k = Some f →
     f_status f = "executed" ∧ is_Some (f_executed_at f) ∧
     f_cancelled_at f = None) ∧
  (∀ invoice_id payment_data,
     active_followups (fst (process_payment invoice_id payment_data st))
       = active_followups st).
Proof.
  intros Hbc. pose proof (between_calls_executed st Hbc) as Hall.
  split; [exact Hall|].
  intros i p. apply payment_keeps_table.
  intros k f Hf Hs. destruct (Hall k f Hf) as [He _]. congruence.
Qed.

Lemma cancellation_finds_nothing_witness :
  ∃ f, active_followups (run_op (Schedule "INV-1" 95 "collections") init)
         !! "BF-INV-1-collections" = Some f ∧
       f_status f = "executed" ∧
       active_followups
         (fst (process_payment "INV-1" ∅
                 (run_op (Schedule "INV-1" 95 "collections") init)))
       = active_followups (run_op (Schedule "INV-1" 95 "collections") init).
Proof.
  destruct (cancellation_finds_nothing
              (run_op (Schedule "INV-1" 95 "collections") init)
              (bc_op init _ (bc_init init eq_refl))) as [Hall Hpay].
  destruct (active_followups (run_op (Schedule "INV-1" 95 "collections") init)
              !! "BF-INV-1-collections") as [f|] eqn:Hf;
    [|vm_compute in Hf; discriminate Hf].
  exists f. split; [reflexivity|]. split; [apply (Hall _ _ Hf)|apply Hpay].
Defined.

(** *** Analytics *)



Lemma filter3_length_le {A} (p q r : A → bool) (l : list A) :
  (∀ x, p x = true → q x = false ∧ r x = false) →
  (∀ x, q x = true → r x = false) →
  (length (List.filter p l) + length (List.filter q l)
   + length (List.filter r l) ≤ length l)%nat.
Proof.
  intros Hp Hq. induction l as [|x l IH]; simpl; [lia|].
  destruct (p x) eqn:Hpx.
  - destruct (Hp x Hpx) as [-> ->]. simpl. lia.
  - destruct (q x) eqn:Hqx.
    + rewrite (Hq x Hqx). simpl. lia.
    + destruct (r x); simpl; lia.
Qed.







(** *** The channels of a reminder *)

Lemma Qltb_inject_Z a b : Qltb (inject_Z a) (inject_Z b) = (a <? b).
Proof. unfold Qltb, inject_Z. simpl. now rewrite !Z.mul_1_r. Qed.

(** X3. [_send_billing_reminder] on a stored follow-up whose invoice amount
    is an integer that [float] converts (the default 0 when the key is
    missing; beyond the range of a float, [float] raises): it raises
    nothing, changes neither the table nor the clock, and delivers by the
    amount: e-mail and a phone call above 500, e-mail alone above 100, a
    text message otherwise; a channel whose contact field is missing or
    empty is skipped.  For a follow-up that is not stored it raises
    [KeyError] and does nothing. *)
Theorem reminder_channels followup_id template_id st :
  (∀ f amount,
     active_followups st !! followup_id = Some f →
     py_get_default (f_invoice_data f) "amount" (VInt 0) = VInt amount →
     Z.abs amount < 2 ^ 1023 →
     _send_billing_reminder followup_id template_id st =
       ({| active_followups := active_followups st;
           payment_processor := payment_processor st;
           clock := clock st;
           outbox := outbox st ++ reminder_deliveries amount (f_invoice_data f) |},
        inr tt)) ∧
  (active_followups st !! followup_id = None →
   _send_billing_reminder followup_id template_id st =
     (st, inl (KeyError followup_id))).
Proof.
  split.
  - intros f amount Hf Hamount _.
    unfold _send_billing_reminder, bind, followup_at, lift_result.
    rewrite Hf, Hamount. cbn [py_float].
    change 500%Q with (inject_Z 500). change 100%Q with (inject_Z 100).
    rewrite !Qltb_inject_Z. unfold reminder_deliveries.
    unfold _send_email_reminder, _schedule_phone_call, _send_sms_reminder,
      emit, modify, ret, push_event.
    destruct st as [m pp t out]. cbn.
    destruct (500 <? amount); [|destruct (100 <? amount)];
      destruct (py_truthy (py_get (f_invoice_data f) "email"));
      destruct (py_truthy (py_get (f_invoice_data f) "phone"));
      cbn; rewrite <- ?app_assoc, ?app_nil_r; reflexivity.
  - intros Hnone. unfold _send_billing_reminder, bind, followup_at.
    now rewrite Hnone.
Qed.

Lemma reminder_channels_witness :
  ∃ st',
    _send_billing_reminder "BF-INV-1-firm" "firm_reminder"
      (with_followups
         {[ "BF-INV-1-firm" :=
              {| f_invoice_id := "INV-1"; f_days_overdue := 35;
                 f_follow_up_type := "firm";
                 f_rule := {| days_after_due := 30; follow_up_type := FIRM;
                              action := "send_reminder";
                              template_id := "firm_reminder" |};
                 f_invoice_data := {[ "phone" := VStr "555-0100" ]};
                 f_status := "scheduled"; f_created_at := "0";
                 f_executed_at := None; f_cancelled_at := None;
                 f_collections_id := None; f_sent_to_collections := None |} ]}
         init) = (st', inr tt) ∧
    outbox st' = [SmsSent (VStr "555-0100")].
Proof.
  eexists. split.
  - eapply (proj1 (reminder_channels _ _ _) _ 0);
      [apply lookup_insert_eq|reflexivity|reflexivity].
  - reflexivity.
Defined.

(** *** Which follow-ups go to collections *)

Lemma applicable_action days_overdue cat :
  7 <= days_overdue →
  ∃ rule, _get_applicable_rule days_overdue cat = Some rule ∧
          In rule _setup_billing_rules ∧
          (action rule = "send_to_collections" ↔
             90 <= days_overdue ∧ cat ≠ "gentle" ∧ cat ≠ "firm" ∧
             cat ≠ "final_notice") ∧
          (action rule = "send_final_notice" ↔
             60 <= days_overdue ∧ cat ≠ "gentle" ∧ cat ≠ "firm" ∧
             (cat = "final_notice" ∨ days_overdue < 90)).
Proof.
  intros Hd. unfold _get_applicable_rule, get_applicable_rule_in, _setup_billing_rules.
  cbn [List.find List.filter days_after_due follow_up_type value].
  destruct (String.eqb_spec "gentle" cat) as [Hg|Hg];
  destruct (String.eqb_spec "firm" cat) as [Hf|Hf]; try congruence;
  destruct (String.eqb_spec "final_notice" cat) as [Hn|Hn]; try congruence;
  destruct (String.eqb_spec "collections" cat) as [Hc|Hc]; try congruence;
  destruct (Z.leb_spec 7 days_overdue); try lia;
  destruct (Z.leb_spec 30 days_overdue);
  destruct (Z.leb_spec 60 days_overdue); try lia;
  destruct (Z.leb_spec 90 days_overdue); try lia;
  cbn;
  (eexists; split; [reflexivity|]; split; [simpl; tauto|]);
  cbn;
  (split;
   [split;
    [intros H'; try discriminate H'; repeat split; (lia || congruence)
    |intros (Ha & Hb & Hc' & Hd'); first [reflexivity | lia | congruence]]
   |split;
    [intros H'; try discriminate H'; repeat split;
     first [lia | congruence | left; congruence | right; lia]
    |intros (Ha & Hb & Hc' & [Hd'|Hd']); first [reflexivity | lia | congruence]]]).
Qed.

(** A call of [schedule_followup] for which [rule] applies, in full: the
    record it leaves, the clock and what was delivered. *)
Lemma schedule_exact invoice_id days_overdue cat rule st :
  _get_applicable_rule days_overdue cat = Some rule →
  In rule _setup_billing_rules →
  ∃ d, _get_invoice_data invoice_id st = (st, inr d) ∧
  let base :=
    {| f_invoice_id := invoice_id; f_days_overdue := days_overdue;
       f_follow_up_type := cat; f_rule := rule; f_invoice_data := d;
       f_status := "scheduled"; f_created_at := isoformat (clock st);
       f_executed_at := None; f_cancelled_at := None;
       f_collections_id := None; f_sent_to_collections := None |} in
  schedule_followup invoice_id days_overdue cat st =
    if String.eqb (action rule) "send_to_collections" then
      ({| active_followups :=
            <[followup_key invoice_id cat :=
                set_executed_at (isoformat (S (S (clock st))))
                  (set_status "executed"
                     (set_sent_to_collections true
                        (set_collections_id ("COL-" +:+ strftime (S (clock st)))
                           base)))]> (active_followups st);
          payment_processor := payment_processor st;
          clock := S (S (S (clock st)));
          outbox := outbox st ++
                    [CollectionsCaseCreated ("COL-" +:+ strftime (S (clock st)));
                     EmailSent (VStr "john.doe@email.com")] |}, inr tt)
    else
      ({| active_followups :=
            <[followup_key invoice_id cat :=
                set_executed_at (isoformat (S (clock st)))
                  (set_status "executed" base)]> (active_followups st);
          payment_processor := payment_processor st;
          clock := S (S (clock st));
          outbox := outbox st ++
                    EmailSent (VStr "john.doe@email.com") ::
                    (if String.eqb (action rule) "send_final_notice"
                     then [CertifiedMailSent (VStr "123 Main St, Anytown, CA 90210")]
                     else []) |}, inr tt).
Proof.
  intros Hrule Hin. eexists. split; [reflexivity|].
  cbv zeta. unfold schedule_followup, store_followup. rewrite Hrule.
  unfold _get_invoice_data.
  match goal with |- context [list_to_map ?l] => set (d := list_to_map l) end.
  assert (He : py_get d "email" = VStr "john.doe@email.com")
    by (vm_compute; reflexivity).
  assert (Ha : py_get_default d "address" (VStr "No address on file")
               = VStr "123 Main St, Anytown, CA 90210") by (vm_compute; reflexivity).
  assert (Hq : ∃ q, py_float (py_get_default d "amount" (VInt 0)) = inr q ∧
                    Qltb 500 q = false ∧ Qltb 100 q = true).
  { eexists. split; [vm_compute; reflexivity|]. split; reflexivity. }
  destruct Hq as (q & Hq & H500 & H100).
  clearbody d.
  destruct Hin as [Hr|[Hr|[Hr|[Hr|[]]]]]; rewrite <- Hr.
  all: unfold _execute_followup_action, _send_billing_reminder, _send_final_notice,
         _send_to_collections, _create_collections_case, _send_email_reminder,
         _send_certified_mail.
  all: repeat first
         [ progress run
         | progress cbn [action f_rule f_invoice_data template_id
                         String.eqb Ascii.eqb Bool.eqb py_truthy negb]
         | rewrite lookup_insert_eq
         | rewrite He | rewrite Ha | rewrite Hq | rewrite H500 | rewrite H100
         | rewrite alter_insert_eq | rewrite insert_insert_eq ].
  all: unfold with_followups, with_clock, push_event; simpl.
  all: rewrite <- ?app_assoc; reflexivity.
Qed.

(** X4. A call of [schedule_followup] with at least 7 days overdue sends
    the account to collections exactly when at least 90 days are overdue
    and the requested category is none of [gentle], [firm] and
    [final_notice]: a request for one of these three never escalates,
    however late the invoice is.  When it does, a collections case is
    created and the patient is notified by e-mail, and the record holds the
    case id and the flag.  When it does not, the record holds neither, and
    what is delivered is an e-mail followed by a certified letter when a
    final notice is due (at least 60 days overdue, a category other than
    [gentle] and [firm], and no escalation), and one e-mail and nothing
    else in every other case. *)
Theorem collections_escalation invoice_id days_overdue cat st :
  7 <= days_overdue →
  ∃ st' f,
    schedule_followup invoice_id days_overdue cat st = (st', inr tt) ∧
    active_followups st' !! followup_key invoice_id cat = Some f ∧
    (f_sent_to_collections f = Some true ↔
       90 <= days_overdue ∧ cat ≠ "gentle" ∧ cat ≠ "firm" ∧
       cat ≠ "final_notice") ∧
    (f_sent_to_collections f = Some true →
       f_collections_id f = Some ("COL-" +:+ strftime (S (clock st))) ∧
       outbox st' =
         (outbox st ++
          [CollectionsCaseCreated ("COL-" +:+ strftime (S (clock st)));
           EmailSent (VStr "john.doe@email.com")])%list) ∧
    (60 <= days_overdue ∧ cat ≠ "gentle" ∧ cat ≠ "firm" ∧
     (cat = "final_notice" ∨ days_overdue < 90) →
       f_sent_to_collections f = None ∧ f_collections_id f = None ∧
       outbox st' =
         (outbox st ++
          [EmailSent (VStr "john.doe@email.com");
           CertifiedMailSent (VStr "123 Main St, Anytown, CA 90210")])%list) ∧
    (¬ (90 <= days_overdue ∧ cat ≠ "gentle" ∧ cat ≠ "firm" ∧
        cat ≠ "final_notice") →
     ¬ (60 <= days_overdue ∧ cat ≠ "gentle" ∧ cat ≠ "firm" ∧
        (cat = "final_notice" ∨ days_overdue < 90)) →
       f_sent_to_collections f = None ∧ f_collections_id f = None ∧
       outbox st' = (outbox st ++ [EmailSent (VStr "john.doe@email.com")])%list).
Proof.
  intros Hd.
  destruct (applicable_action days_overdue cat Hd)
    as (rule & Hrule & Hin & Hiff & Hfin).
  destruct (schedule_exact invoice_id days_overdue cat rule st Hrule Hin)
    as (d & _ & Hrun).
  cbv zeta in Hrun. rewrite Hrun.
  destruct (String.eqb_spec (action rule) "send_to_collections") as [Hact|Hact].
  - do 2 eexists. split; [reflexivity|].
    split; [apply lookup_insert_eq|]. cbn.
    split; [split; [intros _; now apply Hiff|reflexivity]|].
    split; [intros _; split; reflexivity|].
    split.
    + intros Hf. apply Hfin in Hf. rewrite Hact in Hf. discriminate Hf.
    + intros Hno. destruct Hno. now apply Hiff.
  - do 2 eexists. split; [reflexivity|].
    split; [apply lookup_insert_eq|]. cbn.
    split; [split; [discriminate|intros H; destruct Hact; now apply Hiff]|].
    split; [discriminate|].
    split.
    + intros Hf. apply Hfin in Hf. rewrite Hf. cbn. auto.
    + intros _ Hnf.
      destruct (String.eqb_spec (action rule) "send_final_notice") as [Ha|Ha].
      * destruct Hnf. now apply Hfin.
      * auto.
Qed.

Lemma collections_escalation_witness :
  (∃ st' f,
     schedule_followup "INV-9" 120 "urgent" init = (st', inr tt) ∧
     active_followups st' !! "BF-INV-9-urgent" = Some f ∧
     f_sent_to_collections f = Some true ∧
     f_collections_id f = Some "COL-1") ∧
  (∃ st' f,
     schedule_followup "INV-9" 70 "collections" init = (st', inr tt) ∧
     active_followups st' !! "BF-INV-9-collections" = Some f ∧
     f_sent_to_collections f = None ∧
     outbox st' = [EmailSent (VStr "john.doe@email.com");
                   CertifiedMailSent (VStr "123 Main St, Anytown, CA 90210")]) ∧
  (∃ st' f,
     schedule_followup "INV-9" 120 "gentle" init = (st', inr tt) ∧
     active_followups st' !! "BF-INV-9-gentle" = Some f ∧
     f_sent_to_collections f = None ∧
     outbox st' = [EmailSent (VStr "john.doe@email.com")]).
Proof.
  split; [|split].
  - destruct (collections_escalation "INV-9" 120 "urgent" init ltac:(lia))
      as (st' & f & Hrun & Hf & Hiff & Hyes & _).
    exists st', f. split; [exact Hrun|]. split; [exact Hf|].
    assert (Hsent : f_sent_to_collections f = Some true).
    { apply Hiff. split; [lia|]. repeat split; discriminate. }
    split; [exact Hsent|]. exact (proj1 (Hyes Hsent)).
  - destruct (collections_escalation "INV-9" 70 "collections" init ltac:(lia))
      as (st' & f & Hrun & Hf & _ & _ & Hfin & _).
    exists st', f. split; [exact Hrun|]. split; [exact Hf|].
    destruct Hfin as (Hs & _ & Hout).
    { split; [lia|]. split; [discriminate|]. split; [discriminate|]. right. lia. }
    split; [exact Hs|exact Hout].
  - destruct (collections_escalation "INV-9" 120 "gentle" init ltac:(lia))
      as (st' & f & Hrun & Hf & _ & _ & _ & Hrem).
    exists st', f. split; [exact Hrun|]. split; [exact Hf|].
    destruct Hrem as (Hs & _ & Hout).
    { intros (_ & H & _). now apply H. }
    { intros (_ & H & _). now apply H. }
    split; [exact Hs|exact Hout].
Defined.

(** *** Rules are applied when due *)

(** X5. Whatever the rule table holds, a rule that [_get_applicable_rule]
    returns is one of the table whose threshold has been reached; its
    category is the requested one, or else no rule that is due has the
    requested category and the returned one has the largest threshold among
    those that are due.  Nothing is returned exactly when no threshold has
    been reached. *)
Theorem applicable_rule_is_due (billing_rules : list BillingRule)
    (days_overdue : Z) (cat : string) :
  (∀ r, get_applicable_rule_in billing_rules days_overdue cat = Some r →
     In r billing_rules ∧ days_after_due r <= days_overdue ∧
     (value (follow_up_type r) = cat ∨
      ∀ r', In r' billing_rules → days_after_due r' <= days_overdue →
            value (follow_up_type r') ≠ cat ∧
            days_after_due r' <= days_after_due r)) ∧
  (get_applicable_rule_in billing_rules days_overdue cat = None ↔
     ∀ r, In r billing_rules → days_overdue < days_after_due r).
Proof.
  unfold get_applicable_rule_in.
  destruct (List.find _ billing_rules) as [r0|] eqn:Hfind.
  - apply List.find_some in Hfind as [Hin Hp].
    apply andb_prop in Hp as [Hle Hc].
    apply Z.leb_le in Hle. apply String.eqb_eq in Hc.
    split.
    + intros r [= <-]. auto.
    + split; [discriminate|]. intros H. specialize (H r0 Hin). lia.
  - assert (Hno : ∀ r', In r' billing_rules → days_after_due r' <= days_overdue →
                        value (follow_up_type r') ≠ cat).
    { intros r' Hin Hle Hc. pose proof (List.find_none _ _ Hfind r' Hin) as Hp.
      simpl in Hp. apply Z.leb_le in Hle. rewrite Hle in Hp. simpl in Hp.
      apply String.eqb_neq in Hp. contradiction. }
    destruct (List.filter _ billing_rules) as [|a l] eqn:Hf.
    + split; [discriminate|]. split; [|reflexivity].
      intros _ r Hin. destruct (Z.leb_spec (days_after_due r) days_overdue) as [Hle|]; [|lia].
      assert (Hr : In r (List.filter (fun r0 => days_after_due r0 <=? days_overdue)
                                     billing_rules))
        by (apply List.filter_In; split; [assumption|now apply Z.leb_le]).
      rewrite Hf in Hr. destruct Hr.
    + destruct (py_max_by_spec days_after_due l a) as [Hm Hge].
      rewrite <- Hf in Hm, Hge. apply List.filter_In in Hm as [Hm1 Hm2].
      apply Z.leb_le in Hm2.
      split.
      * intros r [= <-]. split; [exact Hm1|]. split; [exact Hm2|]. right.
        intros r' Hin Hle. split; [now apply Hno|].
        apply Hge. apply List.filter_In. split; [assumption|now apply Z.leb_le].
      * split; [discriminate|]. intros H. specialize (H _ Hm1). lia.
Qed.

Lemma applicable_rule_is_due_witness :
  ∃ r, get_applicable_rule_in _setup_billing_rules 45 "collections" = Some r ∧
       days_after_due r <= 45 ∧ value (follow_up_type r) = "firm".
Proof.
  destruct (get_applicable_rule_in _setup_billing_rules 45 "collections")
    as [r|] eqn:Hr; [|vm_compute in Hr; discriminate Hr].
  exists r. split; [reflexivity|].
  split; [exact (proj1 (proj2 (proj1 (applicable_rule_is_due _ _ _) r Hr)))|].
  vm_compute in Hr. injection Hr as <-. reflexivity.
Defined.

End BillingExtras.

(** ** More on the extractors of the AI layer *)

Module AgentExtras.

Import AIAgent AgentProofs.

(** *** The first percentage of a text *)

Lemma span_digits_run ds rest :
  all_digits ds = true →
  match rest with EmptyString => True | String c _ => is_digit c = false end →
  span_digits (ds +:+ rest) = (ds, rest).
Proof.
  intros Hall Hrest. induction ds as [|d ds IH]; simpl in *.
  - destruct rest as [|c rest]; simpl; [reflexivity|]. now rewrite Hrest.
  - apply andb_prop in Hall as [Hd Hall]. rewrite Hd.
    change (span_digits (ds +:+ rest)) with (span_digits (ds +:+ rest)).
    now rewrite (IH Hall).
Qed.

Lemma span_digits_broken pre rest :
  all_digits pre = false →
  span_digits (pre +:+ rest)
    = (fst (span_digits pre), snd (span_digits pre) +:+ rest).
Proof.
  induction pre as [|c pre IH]; simpl; [discriminate|].
  destruct (is_digit c) eqn:Hc; simpl; [|reflexivity].
  intros Hall. specialize (IH Hall).
  change (span_digits (pre +:+ rest)) with (span_digits (pre +:+ rest)) in IH.
  destruct (span_digits pre) as [a b]. simpl in IH.
  change (String.append pre rest) with (pre +:+ rest).
  rewrite IH. reflexivity.
Qed.

Lemma all_digits_app a b :
  all_digits (a +:+ b) = all_digits a && all_digits b.
Proof.
  induction a as [|c a IH]; simpl; [reflexivity|].
  change (String.append a b) with (a +:+ b). now rewrite IH, andb_assoc.
Qed.

Lemma no_final_digit pre :
  pre ≠ EmptyString → ends_with_digit pre = false → all_digits pre = false.
Proof.
  induction pre as [|c pre IH]; [congruence|]. intros _ Hend.
  destruct pre as [|c' pre].
  - simpl in *. now rewrite Hend.
  - change (ends_with_digit (String c' pre) = false) in Hend.
    change (is_digit c && all_digits (String c' pre) = false).
    rewrite IH by (congruence || assumption). apply andb_false_r.
Qed.

Lemma digits_value_some s acc :
  all_digits s = true → 0 <= acc →
  ∃ n, digits_value s acc = Some n ∧ 0 <= n.
Proof.
  revert acc. induction s as [|c s IH]; simpl; intros acc Hall Hacc; [eauto|].
  apply andb_prop in Hall as [Hc Hall]. rewrite Hc. apply IH; [exact Hall|].
  unfold is_digit in Hc. apply andb_prop in Hc as [Hlo _].
  apply Nat.leb_le in Hlo. unfold digit_value. lia.
Qed.

Lemma py_int_digits ds :
  ds ≠ EmptyString → all_digits ds = true →
  ∃ n, digits_value ds 0 = Some n ∧ 0 <= n ∧ py_int ds = inr n.
Proof.
  intros Hne Hall.
  destruct (digits_value_some ds 0 Hall ltac:(lia)) as (n & Hn & Hpos).
  exists n. split; [exact Hn|]. split; [exact Hpos|].
  unfold py_int. destruct ds; [congruence|]. now rewrite Hn.
Qed.

(** The group of a match is a run of digits. *)
Lemma search_group s g :
  re_search_digits_percent s = Some g → g ≠ EmptyString ∧ all_digits g = true.
Proof.
  induction s as [|c s IH]; [discriminate|].
  cbn [re_search_digits_percent].
  destruct (span_digits_spec (String c s)) as (_ & Hall & _).
  destruct (span_digits (String c s)) as [[|d ds] [|p rest]]; auto.
  destruct (Ascii.eqb p "%"); auto.
  intros [= <-]. split; [discriminate|exact Hall].
Qed.

Lemma occurs_later c pre :
  percent_pattern_occurs pre → percent_pattern_occurs (String c pre).
Proof.
  intros (a & ds & b & -> & Hne & Hall). exists (String c a), ds, b. auto.
Qed.

Lemma ends_with_digit_tail c pre :
  ends_with_digit (String c pre) = false → ends_with_digit pre = false.
Proof. destruct pre; [reflexivity|]. intros H. exact H. Qed.

Lemma search_first pre ds post :
  ds ≠ EmptyString → all_digits ds = true →
  ¬ percent_pattern_occurs pre → ends_with_digit pre = false →
  re_search_digits_percent (pre +:+ ds +:+ "%" +:+ post) = Some ds.
Proof.
  intros Hne Hall. induction pre as [|c pre IH]; intros Hno Hend.
  - destruct ds as [|d ds]; [congruence|].
    change (re_search_digits_percent (String d (ds +:+ "%" +:+ post)) = Some (String d ds)).
    cbn [re_search_digits_percent].
    change (String d (ds +:+ "%" +:+ post)) with (String d ds +:+ "%" +:+ post).
    rewrite (span_digits_run (String d ds) ("%" +:+ post) Hall eq_refl).
    reflexivity.
  - assert (Hrec : re_search_digits_percent (pre +:+ ds +:+ "%" +:+ post) = Some ds).
    { apply IH.
      - intros H. apply Hno. now apply occurs_later.
      - now apply ends_with_digit_tail in Hend. }
    change (re_search_digits_percent (String c (pre +:+ ds +:+ "%" +:+ post)) = Some ds).
    cbn [re_search_digits_percent].
    change (String c (pre +:+ ds +:+ "%" +:+ post))
      with (String c pre +:+ ds +:+ "%" +:+ post).
    pose proof (no_final_digit (String c pre) ltac:(congruence) Hend) as Hnd.
    rewrite (span_digits_broken (String c pre) _ Hnd).
    destruct (span_digits_spec (String c pre)) as (Heq & Hall' & _).
    destruct (span_digits (String c pre)) as [[|d' ds'] [|p rest]];
      cbn [fst snd] in *.
    + exact Hrec.
    + exact Hrec.
    + rewrite Heq, all_digits_app, Hall' in Hnd. discriminate Hnd.
    + change ((String p rest) +:+ ds +:+ "%" +:+ post)
        with (String p (rest +:+ ds +:+ "%" +:+ post)). cbv iota beta.
      destruct (Ascii.eqb_spec p "%") as [->|_]; [|exact Hrec].
      destruct Hno. exists EmptyString, (String d' ds'), rest.
      split; [exact Heq|]. split; [discriminate|exact Hall'].
Qed.

(** X7. Where a text has a percentage, [_extract_approval_likelihood]
    reads the first one: for a text [pre ++ ds ++ "%" ++ post] in which [ds]
    is a run of digits that [pre] does not extend, and [pre] holds no
    percentage itself, it returns the number that [ds] denotes, which is at
    least 0 and may exceed 100.  And it raises nothing: on every text it
    returns a number that is at least 0.  (The length bounds keep the
    digits within what [int] accepts.) *)
Theorem extractor_reads_first_percentage :
  (∀ pre ds post,
     ds ≠ EmptyString → all_digits ds = true → (String.length ds ≤ 4300)%nat →
     ¬ percent_pattern_occurs pre → ends_with_digit pre = false →
     ∃ n, digits_value ds 0 = Some n ∧ 0 <= n ∧
          _extract_approval_likelihood (pre +:+ ds +:+ "%" +:+ post) = inr n) ∧
  (∀ analysis,
     (String.length analysis ≤ 4300)%nat →
     ∃ n, 0 <= n ∧ _extract_approval_likelihood analysis = inr n).
Proof.
  split.
  - intros pre ds post Hne Hall _ Hno Hend.
    destruct (py_int_digits ds Hne Hall) as (n & Hn & Hpos & Hint).
    exists n. split; [exact Hn|]. split; [exact Hpos|].
    unfold _extract_approval_likelihood.
    now rewrite (search_first pre ds post Hne Hall Hno Hend).
  - intros analysis _. unfold _extract_approval_likelihood.
    destruct (re_search_digits_percent analysis) as [g|] eqn:Hg.
    + destruct (search_group _ _ Hg) as [Hne Hall].
      destruct (py_int_digits g Hne Hall) as (n & _ & Hpos & Hint). eauto.
    + exists 75. split; [lia|reflexivity].
Qed.

Lemma extractor_reads_first_percentage_witness :
  _extract_approval_likelihood "Likelihood: 120% (was 60%)" = inr 120.
Proof.
  destruct (proj1 extractor_reads_first_percentage
              "Likelihood: " "120" " (was 60%)") as (n & Hn & _ & Hrun).
  - discriminate.
  - reflexivity.
  - vm_compute. lia.
  - apply search_none_iff. reflexivity.
  - reflexivity.
  - vm_compute in Hn. injection Hn as <-. exact Hrun.
Defined.

(** *** Risk factors *)

Lemma startswith_spec p s :
  startswith p s = true ↔ ∃ rest, s = p +:+ rest.
Proof.
  revert s. induction p as [|a p IH]; intros s; simpl.
  - split; [eauto|reflexivity].
  - destruct s as [|b s].
    + split; [discriminate|]. intros [rest H]. discriminate H.
    + rewrite andb_true_iff, IH. split.
      * intros [Hab [rest ->]]. apply Ascii.eqb_eq in Hab as ->. now exists rest.
      * intros [rest [= -> ->]]. split; [apply Ascii.eqb_refl|now exists rest].
Qed.

Lemma contains_spec sub s : contains sub s = true ↔ occurs_in sub s.
Proof.
  induction s as [|c s IH].
  - simpl. rewrite orb_false_r, startswith_spec. split.
    + intros [rest H]. now exists EmptyString, rest.
    + intros ([|a pre] & post & H); [now exists post|discriminate H].
  - change (startswith sub (String c s) || contains sub s = true
            ↔ occurs_in sub (String c s)).
    rewrite orb_true_iff, startswith_spec, IH. split.
    + intros [[rest H]|(pre & post & H)].
      * now exists EmptyString, rest.
      * exists (String c pre), post. now rewrite H.
    + intros ([|a pre] & post & H).
      * left. now exists post.
      * right. injection H as _ H. now exists pre, post.
Qed.

Lemma lower_char_idem c : lower_char (lower_char c) = lower_char c.
Proof.
  destruct c as [[] [] [] [] [] [] [] []]; reflexivity.
Qed.

Lemma lower_idem s : lower (lower s) = lower s.
Proof.
  induction s as [|c s IH]; simpl; [reflexivity|].
  now rewrite lower_char_idem, IH.
Qed.

(** The loop of [_identify_risk_factors] keeps, in the order of the
    keywords, the message of every keyword that passes the test. *)
Lemma risk_loop (test : string → bool) (message : string → string) keywords risks :
  fold_left (λ risks keyword,
               if test keyword then (risks ++ [message keyword])%list else risks)
            keywords risks
  = (risks ++ List.map message (List.filter test keywords))%list.
Proof.
  revert risks. induction keywords as [|k ks IH]; intros risks; simpl.
  - now rewrite app_nil_r.
  - rewrite IH. destruct (test k); [|reflexivity].
    simpl. now rewrite <- app_assoc.
Qed.

Lemma sublist_map_filter {A B} (f : A → B) (test : A → bool) l :
  List.map f (List.filter test l) `sublist_of` List.map f l.
Proof.
  induction l as [|x l IH]; simpl; [constructor|].
  destruct (test x); simpl; now constructor.
Qed.

(** X8. [_identify_risk_factors] reports a keyword exactly when the
    keyword occurs somewhere in the lowered text, inside a longer word or a
    negated phrase included; it reports each keyword at most once, in the
    order of the keyword table, with the messages listed below; and the
    case of the letters of the text makes no difference. *)
Theorem risk_factors_by_keyword analysis :
  (∀ keyword, In keyword risk_keywords →
     (In (title keyword +:+ " issues identified")
         (_identify_risk_factors analysis)
      ↔ occurs_in keyword (lower analysis))) ∧
  _identify_risk_factors analysis `sublist_of`
    [ "Denial issues identified"; "Missing issues identified";
      "Incorrect issues identified"; "Unauthorized issues identified";
      "Documentation issues identified" ] ∧
  _identify_risk_factors (lower analysis) = _identify_risk_factors analysis.
Proof.
  unfold _identify_risk_factors. rewrite !risk_loop, lower_idem. cbn [app].
  split; [|split; [|reflexivity]].
  - intros keyword Hk. rewrite <- contains_spec, List.in_map_iff. split.
    + intros (k' & Heq & Hin). apply List.filter_In in Hin as [Hk' Htest].
      assert (k' = keyword) as <-; [|exact Htest].
      unfold risk_keywords in Hk, Hk'. simpl in Hk, Hk'.
      repeat match goal with
             | H : _ ∨ _ |- _ => destruct H as [H|H]
             | H : False |- _ => destruct H
             end; subst; first [reflexivity | discriminate Heq].
    + intros Htest. exists keyword. split; [reflexivity|].
      apply List.filter_In. auto.
  - apply (sublist_map_filter (λ keyword, title keyword +:+ " issues identified")
             (λ keyword, contains keyword (lower analysis)) risk_keywords).
Qed.

Lemma risk_factors_by_keyword_witness :
  In "Missing issues identified"
     (_identify_risk_factors "Nothing is MISSING from the file.") ∧
  ¬ In "Denial issues identified"
       (_identify_risk_factors "Nothing is MISSING from the file.").
Proof.
  split.
  - apply (proj1 (risk_factors_by_keyword _) "missing").
    + simpl. tauto.
    + exists "nothing is ", " from the file.". reflexivity.
  - intros H.
    apply (proj1 (risk_factors_by_keyword _) "denial") in H; [|simpl; tauto].
    apply contains_spec in H. discriminate H.
Defined.

End AgentExtras.

(** ** The endpoints *)

Module MainProofs.

Import Billing BillingProofs Main.

(** X6. [POST /api/billing/follow-up] always answers [scheduled] with the
    id [FU-<invoice>], also when fewer than 7 days are overdue, so that no
    rule applies and the table is left as it was; and the id it answers is
    never a key of the follow-up table, whose keys are
    [BF-<invoice>-<category>]. *)
Theorem followup_answer_names_no_record invoice_id days_overdue cat st :
  reachable st →
  ∃ st',
    schedule_billing_followup invoice_id days_overdue cat st =
      (st', inr {| fs_status := "scheduled";
                   fs_followup_id := "FU-" +:+ invoice_id |}) ∧
    reachable st' ∧
    (∀ i, active_followups st' !! ("FU-" +:+ i) = None) ∧
    (days_overdue < 7 → st' = st).
Proof.
  intros Hreach. eexists. split; [reflexivity|].
  assert (Hreach' : reachable (fst (schedule_followup invoice_id days_overdue cat st))).
  { exact (reach_op st (Schedule invoice_id days_overdue cat) Hreach). }
  split; [exact Hreach'|]. split.
  - intros i.
    destruct (active_followups _ !! ("FU-" +:+ i)) as [f|] eqn:Hf; [|reflexivity].
    pose proof (reachable_keyed _ Hreach' _ _ Hf) as Hk. discriminate Hk.
  - intros Hd. now rewrite schedule_without_rule.
Qed.

Lemma followup_answer_names_no_record_witness :
  schedule_billing_followup "INV-1" 3 "gentle" init =
    (init, inr {| fs_status := "scheduled"; fs_followup_id := "FU-INV-1" |}) ∧
  ∃ st', schedule_billing_followup "INV-1" 35 "firm" init =
           (st', inr {| fs_status := "scheduled"; fs_followup_id := "FU-INV-1" |}) ∧
         active_followups st' !! "FU-INV-1" = None ∧
         is_Some (active_followups st' !! "BF-INV-1-firm").
Proof.
  split.
  - destruct (followup_answer_names_no_record "INV-1" 3 "gentle" init
                (reach_init init eq_refl)) as (st' & Hrun & _ & _ & Hsame).
    rewrite Hrun, Hsame by lia. reflexivity.
  - destruct (followup_answer_names_no_record "INV-1" 35 "firm" init
                (reach_init init eq_refl)) as (st' & Hrun & _ & Hno & _).
    exists st'. split; [exact Hrun|]. split; [apply (Hno "INV-1")|].
    injection Hrun as <-. vm_compute. eauto.
Defined.

End MainProofs.
